(** * Bit-manipulation primitives of [bitmanipulation.hpp]

    A shallow embedding of the header [src/include/bitmanipulation.hpp]
    and the proofs of the properties its specification states.

    Values of the unsigned integer types are integers of [Z] kept in the
    range of their type; every conversion and every wrap-around of the C++
    source is written out.  A shift whose count reaches the width of the
    shifted operand has no defined result in C++: the shift of this model
    returns [None] there, and every function that evaluates [mask] carries
    that possibility in its result. *)

From Equations Require Import Equations.
From Stdlib Require Import ZArith Bool List Lia.
Import ListNotations.
Local Open Scope Z_scope.

(** ** Integer types *)

Module Types.

(** The unsigned types the templates are instantiated at. *)
Inductive UType : Type := U8 | U16 | U32 | U64.

Definition sizeof (T : UType) : Z :=
  match T with U8 => 1 | U16 => 2 | U32 => 4 | U64 => 8 end.

Definition CHAR_BIT : Z := 8.

(** [sizeof(value) * CHAR_BIT] *)
Definition width (T : UType) : Z := sizeof T * CHAR_BIT.

(** Widths of [uintmax_t], [unsigned] and [int]. *)
Definition UINTMAX_BITS : Z := 64.
Definition UNSIGNED_BITS : Z := 32.
Definition INT_BITS : Z := 32.

(** Reduction modulo [2^w]: conversion to an unsigned type of [w] bits. *)
Definition wrap (w x : Z) : Z := x mod 2 ^ w.

(** [static_cast<T>(x)], and the implicit conversion to [T] of an
    initialisation, an assignment or a [return]. *)
Definition cast (T : UType) (x : Z) : Z := wrap (width T) x.

Definition to_unsigned (x : Z) : Z := wrap UNSIGNED_BITS x.
Definition to_uintmax (x : Z) : Z := wrap UINTMAX_BITS x.

(** The value of an arithmetic expression ([+], [-], unary [-], [~]) whose
    operands have type [T].  A type narrower than [int] is promoted to
    [int], where the operations of this header cannot overflow and give
    the exact integer; [unsigned] and wider types compute modulo
    [2^width]. *)
Definition arith (T : UType) (x : Z) : Z :=
  if width T <? INT_BITS then x else wrap (width T) x.

(** The values of type [T]. *)
Definition in_range (T : UType) (v : Z) : Prop := 0 <= v < 2 ^ width T.

(** The value of [T] with every bit set. *)
Definition all_ones (T : UType) : Z := 2 ^ width T - 1.

End Types.
Export Types.

(** ** Results of code that may shift too far *)

Definition bind {A B : Type} (m : option A) (f : A -> option B) : option B :=
  match m with Some a => f a | None => None end.

Notation "x <- m ;; k" := (bind m (fun x => k))
  (at level 61, m at next level, right associativity).

(** ** The functions of the header *)

(** [x << n] at type [uintmax_t]: undefined once [n] reaches the width. *)
Definition shl (x n : Z) : option Z :=
  if n <? UINTMAX_BITS then Some (to_uintmax (Z.shiftl x n)) else None.

(** [~x] at type [uintmax_t]. *)
Definition lnot_uintmax (x : Z) : Z := to_uintmax (Z.lnot x).

(** [return ~(static_cast<uintmax_t>(~0) << bits) << shift;] *)
Definition mask (bits shift : Z) : option Z :=
  x <- shl (to_uintmax (Z.lnot 0)) bits ;;
  shl (lnot_uintmax x) shift.

(** [const T mask { static_cast<T>(mask(bits, shift)) }; return value | mask;] *)
Definition set_bits (T : UType) (value bits shift : Z) : option Z :=
  m <- mask bits shift ;;
  let mask := cast T m in
  Some (cast T (Z.lor value mask)).

(** [const T mask { static_cast<T>(mask(bits, shift)) };
     return value & static_cast<T>(~mask);] *)
Definition clear_bits (T : UType) (value bits shift : Z) : option Z :=
  m <- mask bits shift ;;
  let mask := cast T m in
  Some (cast T (Z.land value (cast T (arith T (Z.lnot mask))))).

(** The body of the loop of [count_bits_set]:
    [value = value & static_cast<T>(value - 1);] *)
Definition next (T : UType) (value : Z) : Z :=
  cast T (Z.land value (cast T (arith T (value - 1)))).

(** The order along which the loop variable of [count_bits_set] descends.
    A negative integer is no value of an unsigned type; it is placed above
    every value so that the loop is defined on the whole of [Z]. *)
Definition below (x y : Z) : Prop := 0 <= x /\ (x < y \/ y < 0).

Lemma below_wf : well_founded below.
Proof.
  assert (H : forall y, 0 <= y -> Acc below y).
  { intros y Hy. induction (Z.lt_wf 0 y) as [z _ IH].
    constructor. intros x [Hx [Hlt|Hneg]]; [|lia].
    apply IH; lia. }
  intros y. destruct (Z_le_gt_dec 0 y) as [Hy|Hy]; [auto|].
  constructor. intros x [Hx _]. auto.
Qed.

Lemma width_pos T : 0 < width T.
Proof. destruct T; reflexivity. Qed.

Lemma width_le_uintmax T : width T <= UINTMAX_BITS.
Proof. destruct T; discriminate. Qed.

Lemma wrap_range w x : 0 <= w -> 0 <= wrap w x < 2 ^ w.
Proof. intros Hw. apply Z.mod_pos_bound, Z.pow_pos_nonneg; lia. Qed.

Lemma wrap_small w x : 0 <= x < 2 ^ w -> wrap w x = x.
Proof. intros H. apply Z.mod_small, H. Qed.

Lemma wrap_wrap w x : 0 <= w -> wrap w (wrap w x) = wrap w x.
Proof. intros Hw. apply wrap_small, wrap_range, Hw. Qed.

Lemma cast_range T x : in_range T (cast T x).
Proof. apply wrap_range. pose proof (width_pos T). lia. Qed.

Lemma cast_id T v : in_range T v -> cast T v = v.
Proof. apply wrap_small. Qed.

Lemma cast_arith T x : cast T (arith T x) = cast T x.
Proof.
  unfold arith, cast. destruct (width T <? INT_BITS); [reflexivity|].
  apply wrap_wrap. pose proof (width_pos T). lia.
Qed.

Lemma land_le_l a b : 0 <= a -> Z.land a b <= a.
Proof.
  intros Ha. pose proof (Z.sub_land_same_l a b) as E.
  assert (0 <= Z.land a (Z.lnot b)) by (apply Z.land_nonneg; auto). lia.
Qed.

Lemma land_le_r a b : 0 <= b -> Z.land a b <= b.
Proof. rewrite Z.land_comm. apply land_le_l. Qed.

Lemma lor_ge_l a b : 0 <= b -> a <= Z.lor a b.
Proof.
  intros Hb. pose proof (Z.sub_lor_l_same_l b a) as E.
  assert (0 <= Z.land b (Z.lnot a)) by (apply Z.land_nonneg; auto). lia.
Qed.

Lemma land_range T a b : in_range T b -> in_range T (Z.land a b).
Proof.
  intros [Hb0 Hb]. split.
  - apply Z.land_nonneg; auto.
  - pose proof (land_le_r a b Hb0). lia.
Qed.

(** The loop body written without its conversions. *)
Lemma next_eq T v : next T v = Z.land v (cast T (v - 1)).
Proof.
  unfold next. rewrite cast_arith. apply cast_id, land_range, cast_range.
Qed.

Lemma next_below T v : v <> 0 -> below (next T v) v.
Proof.
  intros Hv. rewrite next_eq.
  pose proof (cast_range T (v - 1)) as [Hc0 Hc].
  split; [apply Z.land_nonneg; auto|].
  destruct (Z_lt_le_dec v 0) as [Hneg|Hpos]; [right; exact Hneg|left].
  pose proof (land_le_r v (cast T (v - 1)) Hc0) as Hle.
  destruct (Z_lt_le_dec v (2 ^ width T)) as [Hlt|Hge]; [|lia].
  rewrite cast_id in Hle |- * by (unfold in_range; lia). lia.
Qed.

(** [below] is used as the termination order of the loop.  The generator
    puts enough constructors in front of the proof above for the loop to
    evaluate on closed inputs. *)
#[local] Instance below_WellFounded : WellFounded below :=
  Acc_intro_generator 8 below_wf.

(** [unsigned count { 0U }; for (; value; count++) { value = ...; } return count;]
    with the loop entered at [(value, count)]. *)
Equations count_loop (T : UType) (value count : Z) : Z by wf value below :=
  count_loop T value count with Z.eq_dec value 0 := {
    | left _ => count
    | right Hnz => count_loop T (next T value) (to_unsigned (count + 1)) }.
Next Obligation. apply next_below. assumption. Qed.

Definition count_bits_set (T : UType) (value : Z) : Z := count_loop T value 0.

Definition popcnt (T : UType) (value : Z) : Z := count_bits_set T value.

(** The values [first, first + 1, ...] a loop counter runs through in [n]
    iterations. *)
Fixpoint indices (first : Z) (n : nat) : list Z :=
  match n with
  | O => []
  | S m => first :: indices (first + 1) m
  end.

(** [for (unsigned i = 1; i <= len; i++) {
       if (mask(1, len - i) & value) { break; }
       count++;
     }]
    over the remaining values [todo] of [i]. *)
Fixpoint lz_scan (value len : Z) (todo : list Z) (count : Z) : option Z :=
  match todo with
  | [] => Some count
  | i :: rest =>
      m <- mask 1 (to_unsigned (len - i)) ;;
      if Z.land m (to_uintmax value) =? 0
      then lz_scan value len rest (to_unsigned (count + 1))
      else Some count
  end.

Definition leading_zeroes_count (T : UType) (value : Z) : option Z :=
  if value =? 0 then Some (to_unsigned (sizeof T * CHAR_BIT))
  else
    let count := 0 in
    let len := to_unsigned (sizeof T * CHAR_BIT) in
    lz_scan value len (indices 1 (Z.to_nat len)) count.

Definition lzcnt (T : UType) (value : Z) : option Z :=
  leading_zeroes_count T value.

(** [for (unsigned i = 0; i < len; i++) {
       if (mask(1, i) & value) { break; }
       count++;
     }]
    over the remaining values [todo] of [i]. *)
Fixpoint tz_scan (value : Z) (todo : list Z) (count : Z) : option Z :=
  match todo with
  | [] => Some count
  | i :: rest =>
      m <- mask 1 i ;;
      if Z.land m (to_uintmax value) =? 0
      then tz_scan value rest (to_unsigned (count + 1))
      else Some count
  end.

Definition trailing_zeroes_count (T : UType) (value : Z) : option Z :=
  if value =? 0 then Some (to_unsigned (sizeof T * CHAR_BIT))
  else
    let count := 0 in
    let len := to_unsigned (sizeof T * CHAR_BIT) in
    tz_scan value (indices 0 (Z.to_nat len)) count.

Definition tzcnt (T : UType) (value : Z) : option Z :=
  trailing_zeroes_count T value.

(** [return value | static_cast<T>(~(value + 1));] *)
Definition isolate_lowest_clear_bit (T : UType) (value : Z) : Z :=
  cast T (Z.lor value (cast T (arith T (Z.lnot (arith T (value + 1)))))).

Definition blci (T : UType) (value : Z) : Z := isolate_lowest_clear_bit T value.

(** [return value & static_cast<T>(-value);] *)
Definition isolate_lowest_set_bit (T : UType) (value : Z) : Z :=
  cast T (Z.land value (cast T (arith T (- value)))).

Definition blsi (T : UType) (value : Z) : Z := isolate_lowest_set_bit T value.

(** [if (popcnt(value) == sizeof(value) * CHAR_BIT) { return value; }
     return value & static_cast<T>(value + 1);] *)
Definition fill_from_lowest_clear_bit (T : UType) (value : Z) : Z :=
  if popcnt T value =? sizeof T * CHAR_BIT then value
  else cast T (Z.land value (cast T (arith T (value + 1)))).

Definition blcfill (T : UType) (value : Z) : Z :=
  fill_from_lowest_clear_bit T value.

(** [if (popcnt(value) == 0) { return 0; }
     return value | static_cast<T>(value - 1);] *)
Definition fill_from_lowest_set_bit (T : UType) (value : Z) : Z :=
  if popcnt T value =? 0 then 0
  else cast T (Z.lor value (cast T (arith T (value - 1)))).

Definition blsfill (T : UType) (value : Z) : Z :=
  fill_from_lowest_set_bit T value.

(** [return value & static_cast<T>(value - 1);] *)
Definition clear_lowest_set_bit (T : UType) (value : Z) : Z :=
  cast T (Z.land value (cast T (arith T (value - 1)))).

Definition blsc (T : UType) (value : Z) : Z := clear_lowest_set_bit T value.

(** [return value | static_cast<T>(value + 1);] *)
Definition set_lowest_clear_bit (T : UType) (value : Z) : Z :=
  cast T (Z.lor value (cast T (arith T (value + 1)))).

Definition blcs (T : UType) (value : Z) : Z := set_lowest_clear_bit T value.

(** ** Notions the properties are stated with *)

(** The number of set bits among the [n] lowest positions of [v]. *)
Fixpoint ones_in (n : nat) (v : Z) : Z :=
  match n with
  | O => 0
  | S m => ones_in m v + Z.b2z (Z.testbit v (Z.of_nat m))
  end.

(** The number of 1-bits of a value of type [T]. *)
Definition bit_count (T : UType) (v : Z) : Z := ones_in (Z.to_nat (width T)) v.

(** [k] is the position of the lowest set bit of [v]. *)
Definition lowest_set_bit (v k : Z) : Prop :=
  0 <= k /\ Z.testbit v k = true /\ forall j, 0 <= j < k -> Z.testbit v j = false.

(** [k] is the position of the lowest clear bit of [v]. *)
Definition lowest_clear_bit (v k : Z) : Prop :=
  0 <= k /\ Z.testbit v k = false /\ forall j, 0 <= j < k -> Z.testbit v j = true.

(** [k] is the position of the highest set bit of the value [v] of type [T]. *)
Definition highest_set_bit (T : UType) (v k : Z) : Prop :=
  0 <= k < width T /\ Z.testbit v k = true /\
  forall j, k < j < width T -> Z.testbit v j = false.

(** Position [i] lies in the run of [bits] positions that starts at [shift]. *)
Definition in_region (bits shift i : Z) : bool :=
  (shift <=? i) && (i <? shift + bits).

(** [((1 << bits) - 1) << shift] at the width of the return type of [mask]. *)
Definition mask_formula (bits shift : Z) : Z :=
  wrap UINTMAX_BITS (Z.shiftl (Z.shiftl 1 bits - 1) shift).

(** [value | ~(value + 1)] in arithmetic modulo [2^width T]. *)
Definition blci_formula (T : UType) (value : Z) : Z :=
  Z.lor value (wrap (width T) (Z.lnot (wrap (width T) (value + 1)))).

(** ** The examples of the header's documentation *)

Example mask_doc : mask 2 2 = Some 0x0c.
Proof. reflexivity. Qed.

Example set_bits_doc : set_bits U8 0x0c 2 0 = Some 0x0f.
Proof. reflexivity. Qed.

Example clear_bits_doc : clear_bits U8 0x0f 2 1 = Some 0x09.
Proof. reflexivity. Qed.

Example count_bits_set_doc : count_bits_set U8 0x03 = 2.
Proof. reflexivity. Qed.

Example leading_zeroes_count_doc : leading_zeroes_count U8 0x0f = Some 4.
Proof. reflexivity. Qed.

Example trailing_zeroes_count_doc : trailing_zeroes_count U8 0x0c = Some 2.
Proof. reflexivity. Qed.

Example isolate_lowest_set_bit_doc : isolate_lowest_set_bit U8 0xe3 = 0x01.
Proof. reflexivity. Qed.

Example fill_from_lowest_clear_bit_doc :
  fill_from_lowest_clear_bit U8 0xeb = 0xe8.
Proof. reflexivity. Qed.

Example fill_from_lowest_set_bit_doc :
  fill_from_lowest_set_bit U8 0x74 = 0x77.
Proof. reflexivity. Qed.

Example clear_lowest_set_bit_doc : clear_lowest_set_bit U8 0xe2 = 0xe0.
Proof. reflexivity. Qed.

Example set_lowest_clear_bit_doc : set_lowest_clear_bit U8 0xe3 = 0xe7.
Proof. reflexivity. Qed.

(** ** Bits of a predecessor *)

Ltac cases_cmp :=
  repeat match goal with
  | |- context [?a <? ?b] => destruct (Z.ltb_spec a b)
  | |- context [?a <=? ?b] => destruct (Z.leb_spec a b)
  | |- context [?a =? ?b] => destruct (Z.eqb_spec a b)
  end.

Lemma even_decompose v : Z.testbit v 0 = false -> v = 2 * Z.div2 v.
Proof.
  intros H. rewrite Z.bit0_odd in H.
  rewrite (Z.div2_odd v) at 1. rewrite H. simpl. lia.
Qed.

Lemma odd_decompose v : Z.testbit v 0 = true -> v = 2 * Z.div2 v + 1.
Proof.
  intros H. rewrite Z.bit0_odd in H.
  rewrite (Z.div2_odd v) at 1. rewrite H. reflexivity.
Qed.

Lemma testbit_div2 v i : 0 <= i -> Z.testbit (Z.div2 v) i = Z.testbit v (i + 1).
Proof. intros Hi. rewrite Z.div2_div, Z.div2_bits by assumption. reflexivity. Qed.

Lemma pred_bits_nat (k : nat) : forall v,
  lowest_set_bit v (Z.of_nat k) ->
  forall i, 0 <= i ->
  Z.testbit (v - 1) i =
  if i <? Z.of_nat k then true else if i =? Z.of_nat k then false else Z.testbit v i.
Proof.
  induction k as [|k IH]; intros v (_ & Hk & Hlow) i Hi.
  - change (Z.of_nat 0) with 0 in *.
    pose proof (odd_decompose v Hk) as E.
    replace (v - 1) with (2 * Z.div2 v) by lia.
    destruct (Z.eq_dec i 0) as [->|Hne].
    + rewrite Z.testbit_even_0. reflexivity.
    + replace i with (Z.succ (i - 1)) by lia.
      rewrite Z.testbit_even_succ by lia.
      rewrite E at 2. rewrite Z.testbit_odd_succ by lia.
      cases_cmp; try lia; reflexivity.
  - assert (H0 : Z.testbit v 0 = false) by (apply Hlow; lia).
    pose proof (even_decompose v H0) as E.
    assert (Hq : lowest_set_bit (Z.div2 v) (Z.of_nat k)).
    { split; [lia|]. split.
      - rewrite testbit_div2 by lia. rewrite <- Hk. f_equal. lia.
      - intros j Hj. rewrite testbit_div2 by lia. apply Hlow. lia. }
    replace (v - 1) with (2 * (Z.div2 v - 1) + 1) by lia.
    destruct (Z.eq_dec i 0) as [->|Hne].
    + rewrite Z.testbit_odd_0. cases_cmp; try lia; reflexivity.
    + replace i with (Z.succ (i - 1)) at 1 by lia.
      rewrite Z.testbit_odd_succ by lia.
      rewrite (IH _ Hq) by lia.
      rewrite testbit_div2 by lia. replace (i - 1 + 1) with i by lia.
      cases_cmp; try lia; reflexivity.
Qed.

Lemma pred_bits v k i :
  lowest_set_bit v k -> 0 <= i ->
  Z.testbit (v - 1) i =
  if i <? k then true else if i =? k then false else Z.testbit v i.
Proof.
  intros H Hi. pose proof H as (Hk & _).
  rewrite <- (Z2Nat.id k Hk) in H |- *. apply pred_bits_nat; assumption.
Qed.

Lemma lowest_set_bit_exists (n : nat) : forall v,
  0 < v < 2 ^ Z.of_nat n ->
  exists k, k < Z.of_nat n /\ lowest_set_bit v k.
Proof.
  induction n as [|n IH]; intros v Hv.
  - change (2 ^ Z.of_nat 0) with 1 in Hv. lia.
  - destruct (Z.testbit v 0) eqn:H0.
    + exists 0. split; [lia|]. split; [lia|]. split; [assumption|]. intros; lia.
    + pose proof (even_decompose v H0) as E.
      rewrite Nat2Z.inj_succ, Z.pow_succ_r in Hv by lia.
      destruct (IH (Z.div2 v)) as (k & Hkn & Hk0 & Hk & Hlow); [lia|].
      exists (k + 1). split; [lia|]. split; [lia|]. split.
      * rewrite <- testbit_div2 by lia. assumption.
      * intros j Hj. destruct (Z.eq_dec j 0) as [->|Hne]; [assumption|].
        replace j with (j - 1 + 1) by lia.
        rewrite <- testbit_div2 by lia. apply Hlow. lia.
Qed.

Lemma lowest_set_bit_unique v k k' :
  lowest_set_bit v k -> lowest_set_bit v k' -> k = k'.
Proof.
  intros (Hk0 & Hk & Hlow) (Hk0' & Hk' & Hlow').
  destruct (Z.lt_trichotomy k k') as [H|[H|H]]; [|assumption|].
  - rewrite Hlow' in Hk by lia. discriminate.
  - rewrite Hlow in Hk' by lia. discriminate.
Qed.

(** ** Counting set bits *)

Lemma ones_in_bounds n v : 0 <= ones_in n v <= Z.of_nat n.
Proof.
  induction n as [|n IH]; simpl ones_in; [lia|].
  destruct (Z.testbit v (Z.of_nat n)); simpl Z.b2z; lia.
Qed.

Lemma ones_in_ext n a b :
  (forall i, 0 <= i < Z.of_nat n -> Z.testbit a i = Z.testbit b i) ->
  ones_in n a = ones_in n b.
Proof.
  induction n as [|n IH]; intros H; simpl ones_in; [reflexivity|].
  rewrite IH by (intros; apply H; lia).
  rewrite (H (Z.of_nat n)) by lia. reflexivity.
Qed.

Lemma ones_in_zero n : ones_in n 0 = 0.
Proof.
  induction n as [|n IH]; simpl ones_in; [reflexivity|].
  rewrite IH, Z.bits_0. reflexivity.
Qed.

(** Clearing one set bit among the [n] lowest takes one off the count. *)
Lemma ones_in_clear n a b k :
  0 <= k < Z.of_nat n ->
  Z.testbit a k = true -> Z.testbit b k = false ->
  (forall i, 0 <= i < Z.of_nat n -> i <> k -> Z.testbit a i = Z.testbit b i) ->
  ones_in n a = ones_in n b + 1.
Proof.
  induction n as [|n IH]; intros Hk Ha Hb Hrest; [lia|].
  simpl ones_in. destruct (Z.eq_dec k (Z.of_nat n)) as [->|Hne].
  - rewrite Ha, Hb. simpl Z.b2z.
    rewrite (ones_in_ext n a b) by (intros; apply Hrest; lia). lia.
  - rewrite IH by (try assumption; try lia; intros; apply Hrest; lia).
    rewrite (Hrest (Z.of_nat n)) by lia. lia.
Qed.

(** The count of a run of [bits] set bits that starts at [shift]. *)
Lemma ones_in_region n v bits shift :
  0 <= bits -> 0 <= shift ->
  (forall i, 0 <= i < Z.of_nat n -> Z.testbit v i = in_region bits shift i) ->
  ones_in n v = Z.max 0 (Z.min (Z.of_nat n) (shift + bits) - shift).
Proof.
  intros Hb Hs. induction n as [|n IH]; intros H; simpl ones_in; [lia|].
  rewrite IH by (intros; apply H; lia).
  rewrite (H (Z.of_nat n)) by lia. unfold in_region.
  cases_cmp; simpl; lia.
Qed.

Lemma bit_count_bounds T v : 0 <= bit_count T v <= width T.
Proof.
  unfold bit_count. pose proof (ones_in_bounds (Z.to_nat (width T)) v).
  pose proof (width_pos T). lia.
Qed.

Lemma in_range_high_bits T v i :
  in_range T v -> width T <= i -> Z.testbit v i = false.
Proof.
  intros Hv Hi. rewrite <- (cast_id T v Hv). unfold cast, wrap.
  apply Z.mod_pow2_bits_high. pose proof (width_pos T). lia.
Qed.

(** ** The loop body clears the lowest set bit *)

Lemma next_nonzero T v : in_range T v -> v <> 0 -> next T v = Z.land v (v - 1).
Proof.
  intros Hv Hnz. rewrite next_eq, cast_id; [reflexivity|].
  unfold in_range in *. lia.
Qed.

Lemma next_range T v : in_range T (next T v).
Proof. apply cast_range. Qed.

Lemma next_bits T v k i :
  in_range T v -> lowest_set_bit v k -> 0 <= i ->
  Z.testbit (next T v) i = Z.testbit v i && negb (i =? k).
Proof.
  intros Hv Hk Hi. pose proof Hk as (Hk0 & Hkt & Hlow).
  assert (Hnz : v <> 0) by (intros ->; rewrite Z.bits_0 in Hkt; discriminate).
  rewrite next_nonzero, Z.land_spec, (pred_bits v k i) by assumption.
  destruct (Z.ltb_spec i k) as [Hlt|Hge].
  - rewrite Hlow by lia. reflexivity.
  - destruct (Z.eqb_spec i k) as [->|Hne]; simpl.
    + rewrite andb_false_r. reflexivity.
    + rewrite andb_true_r. apply andb_diag.
Qed.

Lemma lowest_set_bit_in_range T v :
  in_range T v -> v <> 0 -> exists k, k < width T /\ lowest_set_bit v k.
Proof.
  intros Hv Hnz. pose proof (width_pos T).
  destruct (lowest_set_bit_exists (Z.to_nat (width T)) v) as (k & Hk & Hl).
  - rewrite Z2Nat.id by lia. unfold in_range in Hv. lia.
  - exists k. split; [lia|assumption].
Qed.

Lemma bit_count_next T v :
  in_range T v -> v <> 0 -> bit_count T v = bit_count T (next T v) + 1.
Proof.
  intros Hv Hnz. pose proof (width_pos T).
  destruct (lowest_set_bit_in_range T v Hv Hnz) as (k & Hkw & Hk).
  pose proof Hk as (Hk0 & Hkt & _).
  unfold bit_count. apply (ones_in_clear _ _ _ k).
  - lia.
  - assumption.
  - rewrite (next_bits T v k k) by (assumption || lia).
    rewrite Z.eqb_refl. apply andb_false_r.
  - intros i Hi Hne. rewrite (next_bits T v k i) by (assumption || lia).
    destruct (Z.eqb_spec i k); [contradiction|]. symmetry. apply andb_true_r.
Qed.

(** ** The loop of [count_bits_set] *)

Lemma count_loop_eq T v c :
  count_loop T v c =
  if v =? 0 then c else count_loop T (next T v) (to_unsigned (c + 1)).
Proof.
  rewrite count_loop_equation_1. unfold count_loop_unfold_clause_1.
  destruct (Z.eq_dec v 0) as [->|Hnz]; [reflexivity|].
  destruct (Z.eqb_spec v 0); [contradiction|reflexivity].
Qed.

Lemma to_unsigned_small x : 0 <= x < 2 ^ UNSIGNED_BITS -> to_unsigned x = x.
Proof. apply wrap_small. Qed.

Lemma count_loop_bit_count T : forall v c,
  in_range T v -> 0 <= c -> c + bit_count T v < 2 ^ UNSIGNED_BITS ->
  count_loop T v c = c + bit_count T v.
Proof.
  intros v. induction (Z.lt_wf 0 v) as [v _ IH]. intros c Hv Hc Hsum.
  rewrite count_loop_eq. destruct (Z.eqb_spec v 0) as [->|Hnz].
  - unfold bit_count. rewrite ones_in_zero. lia.
  - pose proof (bit_count_next T v Hv Hnz) as E.
    pose proof (bit_count_bounds T (next T v)).
    pose proof (next_below T v Hnz) as [Hn0 Hn].
    rewrite to_unsigned_small by lia.
    rewrite IH; [lia| |apply next_range|lia|lia].
    unfold in_range in Hv. lia.
Qed.

Lemma count_bits_set_bit_count T v :
  in_range T v -> count_bits_set T v = bit_count T v.
Proof.
  intros Hv. unfold count_bits_set.
  rewrite count_loop_bit_count; [lia|assumption|lia|].
  pose proof (bit_count_bounds T v). pose proof (width_le_uintmax T).
  unfold UINTMAX_BITS, UNSIGNED_BITS in *.
  assert (2 ^ 32 = 4294967296) by reflexivity. lia.
Qed.

(** ** The value of [mask] *)

Lemma shl_defined x n : n < UINTMAX_BITS -> shl x n = Some (to_uintmax (Z.shiftl x n)).
Proof.
  intros Hn. unfold shl. destruct (Z.ltb_spec n UINTMAX_BITS); [reflexivity|lia].
Qed.

Lemma shl_undefined x n : UINTMAX_BITS <= n -> shl x n = None.
Proof.
  intros Hn. unfold shl. destruct (Z.ltb_spec n UINTMAX_BITS); [lia|reflexivity].
Qed.

Lemma testbit_m1 n : Z.testbit (-1) n = (0 <=? n).
Proof.
  destruct (Z.leb_spec 0 n).
  - apply Z.bits_m1. assumption.
  - apply Z.testbit_neg_r. assumption.
Qed.

(** [~(static_cast<uintmax_t>(~0) << bits)] has its [bits] lowest bits set. *)
Lemma low_ones bits :
  0 <= bits < UINTMAX_BITS ->
  lnot_uintmax (to_uintmax (Z.shiftl (to_uintmax (Z.lnot 0)) bits)) =
  Z.shiftl 1 bits - 1.
Proof.
  intros Hb. rewrite Z.sub_1_r. fold (Z.ones bits).
  unfold lnot_uintmax, to_uintmax, wrap, UINTMAX_BITS in *.
  apply Z.bits_inj'. intros i Hi.
  rewrite Z.testbit_mod_pow2, Z.lnot_spec, Z.testbit_mod_pow2 by lia.
  rewrite Z.shiftl_spec, Z.testbit_mod_pow2 by lia.
  change (Z.lnot 0) with (-1). rewrite testbit_m1, Z.testbit_ones by lia.
  cases_cmp; try lia; reflexivity.
Qed.

Lemma mask_defined bits shift :
  0 <= bits < UINTMAX_BITS -> 0 <= shift < UINTMAX_BITS ->
  mask bits shift = Some (mask_formula bits shift).
Proof.
  intros Hb Hs. unfold mask.
  rewrite shl_defined by lia. simpl bind.
  rewrite shl_defined by lia. rewrite low_ones by assumption. reflexivity.
Qed.

Lemma mask_undefined bits shift :
  0 <= bits -> 0 <= shift ->
  UINTMAX_BITS <= bits \/ UINTMAX_BITS <= shift -> mask bits shift = None.
Proof.
  intros Hb Hs H. unfold mask.
  destruct (Z.ltb_spec bits UINTMAX_BITS) as [Hlt|Hge].
  - rewrite shl_defined by lia. simpl bind. apply shl_undefined. lia.
  - rewrite shl_undefined by lia. reflexivity.
Qed.

Lemma mask_formula_bits bits shift i :
  0 <= bits -> 0 <= shift -> 0 <= i ->
  Z.testbit (mask_formula bits shift) i =
  (i <? UINTMAX_BITS) && in_region bits shift i.
Proof.
  intros Hb Hs Hi. unfold mask_formula, wrap, in_region, UINTMAX_BITS.
  rewrite Z.sub_1_r. fold (Z.ones bits).
  rewrite Z.testbit_mod_pow2, Z.shiftl_spec, Z.testbit_ones by lia.
  cases_cmp; try lia; reflexivity.
Qed.

Lemma mask_formula_range bits shift : 0 <= mask_formula bits shift < 2 ^ UINTMAX_BITS.
Proof. apply wrap_range. discriminate. Qed.

(** The mask as [set_bits] and [clear_bits] use it, converted to [T]. *)
Lemma cast_mask_bits T bits shift i :
  0 <= bits -> 0 <= shift -> bits + shift <= width T -> 0 <= i ->
  Z.testbit (cast T (mask_formula bits shift)) i = in_region bits shift i.
Proof.
  intros Hb Hs Hw Hi. pose proof (width_pos T). pose proof (width_le_uintmax T).
  unfold cast, wrap. rewrite Z.testbit_mod_pow2, mask_formula_bits by lia.
  unfold in_region. cases_cmp; try lia; reflexivity.
Qed.

(** Wherever both shifts of [mask] are defined, a mask that fits in [T]
    has [bits] set bits. *)
Lemma count_bits_set_mask T bits shift :
  0 <= bits < UINTMAX_BITS -> 0 <= shift < UINTMAX_BITS ->
  bits + shift <= width T ->
  (m <- mask bits shift ;; Some (count_bits_set T (cast T m))) = Some bits.
Proof.
  intros Hb Hs Hw. pose proof (width_pos T).
  rewrite mask_defined by assumption. simpl bind. f_equal.
  rewrite count_bits_set_bit_count by apply cast_range.
  unfold bit_count.
  rewrite (ones_in_region _ _ bits shift); [lia|lia|lia|].
  intros i Hi. apply cast_mask_bits; lia.
Qed.

(** C1, at the full width: [mask(64, 0)] shifts a [uintmax_t] by its whole
    width, which has no defined result, so that
    [count_bits_set(mask(64, 0))] does not return 64, although
    [bits + shift <= 64]. *)
Theorem count_bits_set_mask_full_width :
  mask 64 0 = None /\
  (m <- mask 64 0 ;; Some (count_bits_set U64 (cast U64 m))) <> Some 64.
Proof. split; [reflexivity|discriminate]. Qed.

(** C2, counterexample: [mask(2, 63)] is the single bit 63, not a value
    with exactly two set bits. *)
Lemma mask_2_63_not_two_bits :
  ~ (exists m, mask 2 63 = Some m /\ m = mask_formula 2 63 /\
               count_bits_set U64 m = 2).
Proof.
  intros (m & Hm & _ & Hc). vm_compute in Hm. injection Hm as <-.
  vm_compute in Hc. discriminate.
Qed.

(** C2, amended: where both shift counts are below the width of
    [uintmax_t], [mask(bits, shift)] is [((1 << bits) - 1) << shift] reduced
    to that width; when moreover [bits + shift] is within the width, it has
    exactly [bits] set bits, at the positions [shift .. shift + bits - 1];
    [bits = 0] gives the all-zero value and [shift = 0] gives
    [2^bits - 1]. *)
Theorem mask_spec bits shift :
  0 <= bits < UINTMAX_BITS -> 0 <= shift < UINTMAX_BITS ->
  exists m,
    mask bits shift = Some m /\
    m = mask_formula bits shift /\
    (bits = 0 -> m = 0) /\
    (bits + shift <= UINTMAX_BITS ->
       (forall i, 0 <= i -> Z.testbit m i = in_region bits shift i) /\
       count_bits_set U64 m = bits /\
       (shift = 0 -> m = 2 ^ bits - 1)).
Proof.
  intros Hb Hs. exists (mask_formula bits shift).
  split; [apply mask_defined; assumption|]. split; [reflexivity|]. split.
  - intros ->. unfold mask_formula. change (Z.shiftl 1 0 - 1) with 0.
    rewrite Z.shiftl_0_l. reflexivity.
  - intros Hw.
    assert (Hbits : forall i, 0 <= i ->
              Z.testbit (mask_formula bits shift) i = in_region bits shift i).
    { intros i Hi. rewrite mask_formula_bits by lia.
      unfold in_region, UINTMAX_BITS in *. cases_cmp; try lia; reflexivity. }
    split; [exact Hbits|]. split.
    + rewrite count_bits_set_bit_count by apply mask_formula_range.
      unfold bit_count. rewrite (ones_in_region _ _ bits shift); [|lia|lia|].
      * change (Z.of_nat (Z.to_nat (width U64))) with 64.
        unfold UINTMAX_BITS in *. lia.
      * intros i Hi. apply Hbits. lia.
    + intros ->. unfold mask_formula. rewrite Z.shiftl_0_r, Z.shiftl_1_l.
      apply wrap_small. unfold UINTMAX_BITS in *. split.
      * assert (0 < 2 ^ bits) by (apply Z.pow_pos_nonneg; lia). lia.
      * assert (2 ^ bits < 2 ^ 64) by (apply Z.pow_lt_mono_r; lia). lia.
Qed.

Lemma mask_spec_witness :
  exists m,
    mask 2 2 = Some m /\
    m = mask_formula 2 2 /\
    (2 = 0 -> m = 0) /\
    (2 + 2 <= UINTMAX_BITS ->
       (forall i, 0 <= i -> Z.testbit m i = in_region 2 2 i) /\
       count_bits_set U64 m = 2 /\
       (2 = 0 -> m = 2 ^ 2 - 1)).
Proof. apply (mask_spec 2 2); unfold UINTMAX_BITS; lia. Defined.

(** ** Population count *)

Lemma all_ones_range T : in_range T (all_ones T).
Proof. destruct T; vm_compute; (split; [discriminate|reflexivity]). Qed.

(** C3: [count_bits_set] returns the number of 1-bits of its argument: 0 for
    the value 0 and the width of the type for the all-ones value. *)
Theorem count_bits_set_correct T v :
  in_range T v ->
  count_bits_set T v = bit_count T v /\
  count_bits_set T 0 = 0 /\
  count_bits_set T (all_ones T) = width T.
Proof.
  intros Hv. split; [apply count_bits_set_bit_count, Hv|]. split.
  - unfold count_bits_set. rewrite count_loop_eq. reflexivity.
  - destruct T; vm_compute; reflexivity.
Qed.

Lemma count_bits_set_correct_witness :
  count_bits_set U8 0xe3 = bit_count U8 0xe3 /\
  count_bits_set U8 0 = 0 /\
  count_bits_set U8 (all_ones U8) = width U8.
Proof. apply (count_bits_set_correct U8 0xe3). vm_compute. split; [discriminate|reflexivity]. Defined.

(** C8: clearing the lowest set bit of a nonzero value takes exactly one off
    its population count. *)
Theorem count_clear_lowest_set_bit T v :
  in_range T v -> v <> 0 ->
  count_bits_set T (clear_lowest_set_bit T v) = count_bits_set T v - 1.
Proof.
  intros Hv Hnz. change (clear_lowest_set_bit T v) with (next T v).
  rewrite !count_bits_set_bit_count by (assumption || apply next_range).
  rewrite (bit_count_next T v) by assumption. lia.
Qed.

Lemma count_clear_lowest_set_bit_witness :
  count_bits_set U8 (clear_lowest_set_bit U8 0xe2) = count_bits_set U8 0xe2 - 1.
Proof.
  apply (count_clear_lowest_set_bit U8 0xe2).
  - vm_compute. split; [discriminate|reflexivity].
  - discriminate.
Defined.

(** ** Termination of the counting loop *)

Lemma bit_count_zero T v : in_range T v -> bit_count T v = 0 -> v = 0.
Proof.
  intros Hv H0. destruct (Z.eq_dec v 0) as [|Hnz]; [assumption|].
  pose proof (bit_count_next T v Hv Hnz).
  pose proof (bit_count_bounds T (next T v)). lia.
Qed.

Lemma iter_next T (n : nat) : forall v,
  in_range T v -> bit_count T v = Z.of_nat n ->
  Nat.iter n (next T) v = 0 /\
  forall m, (m < n)%nat -> Nat.iter m (next T) v <> 0.
Proof.
  induction n as [|n IH]; intros v Hv Hn.
  - split; [apply (bit_count_zero T v Hv Hn)|]. intros m Hm. lia.
  - assert (Hnz : v <> 0).
    { intros ->. unfold bit_count in Hn. rewrite ones_in_zero in Hn. lia. }
    pose proof (bit_count_next T v Hv Hnz) as E.
    destruct (IH (next T v)) as [Hz Hpos]; [apply next_range|lia|].
    split.
    + rewrite Nat.iter_succ_r. exact Hz.
    + intros [|m] Hm; [exact Hnz|].
      rewrite Nat.iter_succ_r. apply Hpos. lia.
Qed.

(** C10: the loop of [count_bits_set] terminates on every value.  Its loop
    variable descends along the well-founded order [below], strictly
    decreasing at every turn, and reaches zero after as many turns as the
    function returns, which are at most the width of the type. *)
Theorem count_bits_set_terminates T v :
  in_range T v ->
  well_founded below /\
  (v <> 0 ->
   next T v = Z.land v (v - 1) /\ below (next T v) v /\ 0 <= next T v < v) /\
  exists n : nat,
    Z.of_nat n <= width T /\
    Nat.iter n (next T) v = 0 /\
    (forall m, (m < n)%nat -> Nat.iter m (next T) v <> 0) /\
    count_bits_set T v = Z.of_nat n.
Proof.
  intros Hv. split; [exact below_wf|]. split.
  - intros Hnz. pose proof (next_below T v Hnz) as Hb.
    split; [apply next_nonzero; assumption|].
    split; [exact Hb|]. destruct Hb as [H0 [Hlt|Hneg]]; [lia|].
    unfold in_range in Hv. lia.
  - pose proof (bit_count_bounds T v) as Hc.
    exists (Z.to_nat (bit_count T v)).
    destruct (iter_next T (Z.to_nat (bit_count T v)) v Hv) as [Hz Hpos]; [lia|].
    split; [lia|]. split; [exact Hz|]. split; [exact Hpos|].
    rewrite count_bits_set_bit_count by assumption. lia.
Qed.

Lemma count_bits_set_terminates_witness :
  well_founded below /\
  (0xe3 <> 0 ->
   next U8 0xe3 = Z.land 0xe3 (0xe3 - 1) /\
   below (next U8 0xe3) 0xe3 /\ 0 <= next U8 0xe3 < 0xe3) /\
  exists n : nat,
    Z.of_nat n <= width U8 /\
    Nat.iter n (next U8) 0xe3 = 0 /\
    (forall m, (m < n)%nat -> Nat.iter m (next U8) 0xe3 <> 0) /\
    count_bits_set U8 0xe3 = Z.of_nat n.
Proof.
  apply (count_bits_set_terminates U8 0xe3).
  vm_compute. split; [discriminate|reflexivity].
Defined.

(** ** Bounds of the lowest-bit operations *)

Lemma lor_range T a b : in_range T a -> in_range T b -> in_range T (Z.lor a b).
Proof.
  intros Ha Hb. pose proof (width_pos T).
  replace (Z.lor a b) with (cast T (Z.lor a b)); [apply cast_range|].
  unfold cast, wrap. apply Z.bits_inj'. intros i Hi.
  rewrite Z.testbit_mod_pow2 by lia.
  destruct (Z.ltb_spec i (width T)); [reflexivity|].
  rewrite Z.lor_spec, !(in_range_high_bits T) by assumption. reflexivity.
Qed.

Lemma clear_lowest_set_bit_eq T v :
  clear_lowest_set_bit T v = Z.land v (cast T (v - 1)).
Proof. exact (next_eq T v). Qed.

Lemma set_lowest_clear_bit_eq T v :
  in_range T v -> set_lowest_clear_bit T v = Z.lor v (cast T (v + 1)).
Proof.
  intros Hv. unfold set_lowest_clear_bit. rewrite cast_arith.
  apply cast_id, lor_range; [assumption|apply cast_range].
Qed.

(** C9: as unsigned integers, [clear_lowest_set_bit(v) <= v <=
    set_lowest_clear_bit(v)]; the wrap-around of [v - 1] at 0 and of [v + 1]
    at the all-ones value leaves the value unchanged. *)
Theorem lowest_bit_bounds T v :
  in_range T v ->
  clear_lowest_set_bit T v <= v /\
  v <= set_lowest_clear_bit T v /\
  in_range T (clear_lowest_set_bit T v) /\
  in_range T (set_lowest_clear_bit T v) /\
  clear_lowest_set_bit T 0 = 0 /\
  set_lowest_clear_bit T (all_ones T) = all_ones T.
Proof.
  intros Hv. pose proof (cast_range T (v + 1)) as [Hc0 _].
  split; [|split; [|split; [|split; [|split]]]].
  - rewrite clear_lowest_set_bit_eq. apply land_le_l. apply Hv.
  - rewrite set_lowest_clear_bit_eq by assumption. apply lor_ge_l, Hc0.
  - apply cast_range.
  - apply cast_range.
  - destruct T; reflexivity.
  - destruct T; reflexivity.
Qed.

Lemma lowest_bit_bounds_witness :
  clear_lowest_set_bit U8 0xe3 <= 0xe3 /\
  0xe3 <= set_lowest_clear_bit U8 0xe3 /\
  in_range U8 (clear_lowest_set_bit U8 0xe3) /\
  in_range U8 (set_lowest_clear_bit U8 0xe3) /\
  clear_lowest_set_bit U8 0 = 0 /\
  set_lowest_clear_bit U8 (all_ones U8) = all_ones U8.
Proof.
  apply (lowest_bit_bounds U8 0xe3).
  vm_compute. split; [discriminate|reflexivity].
Defined.

(** ** Isolating the lowest clear bit *)

Lemma cast_lnot T x : cast T (Z.lnot (cast T x)) = cast T (Z.lnot x).
Proof.
  pose proof (width_pos T). unfold cast, wrap.
  apply Z.bits_inj'. intros i Hi.
  rewrite !Z.testbit_mod_pow2, !Z.lnot_spec, Z.testbit_mod_pow2 by lia.
  destruct (Z.ltb_spec i (width T)); reflexivity.
Qed.

Lemma cast_lnot_arith T x : cast T (Z.lnot (arith T x)) = cast T (Z.lnot x).
Proof.
  unfold arith. destruct (width T <? INT_BITS); [reflexivity|].
  apply cast_lnot.
Qed.

(** C6: [isolate_lowest_clear_bit(value)] is [value | ~(value + 1)] computed
    modulo [2^W]; at 8 bits, [0b11100011] gives [0b11111011]. *)
Theorem isolate_lowest_clear_bit_formula T v :
  in_range T v ->
  isolate_lowest_clear_bit T v = blci_formula T v /\
  isolate_lowest_clear_bit U8 0xe3 = 0xfb.
Proof.
  intros Hv. split; [|reflexivity].
  unfold isolate_lowest_clear_bit, blci_formula.
  rewrite cast_arith, cast_lnot_arith.
  fold (cast T (v + 1)). fold (cast T (Z.lnot (cast T (v + 1)))).
  rewrite cast_lnot.
  apply cast_id, lor_range; [assumption|apply cast_range].
Qed.

Lemma isolate_lowest_clear_bit_formula_witness :
  isolate_lowest_clear_bit U16 0xffff = blci_formula U16 0xffff /\
  isolate_lowest_clear_bit U8 0xe3 = 0xfb.
Proof.
  apply (isolate_lowest_clear_bit_formula U16 0xffff).
  vm_compute. split; [discriminate|reflexivity].
Defined.

(** ** Filling from the lowest set bit *)

Lemma popcnt_nonzero T v : in_range T v -> v <> 0 -> 1 <= popcnt T v.
Proof.
  intros Hv Hnz. unfold popcnt. rewrite count_bits_set_bit_count by assumption.
  pose proof (bit_count_next T v Hv Hnz).
  pose proof (bit_count_bounds T (next T v)). lia.
Qed.

Lemma fill_from_lowest_set_bit_nonzero T v :
  in_range T v -> v <> 0 -> fill_from_lowest_set_bit T v = Z.lor v (v - 1).
Proof.
  intros Hv Hnz. unfold fill_from_lowest_set_bit.
  pose proof (popcnt_nonzero T v Hv Hnz).
  destruct (Z.eqb_spec (popcnt T v) 0); [lia|].
  assert (Hp : in_range T (v - 1)) by (unfold in_range in *; lia).
  rewrite cast_arith, (cast_id T (v - 1)) by assumption.
  apply cast_id, lor_range; assumption.
Qed.

(** C7: [fill_from_lowest_set_bit] returns 0 for 0; on every other value
    it is [value | (value - 1)], which sets every bit below and including
    the lowest set bit and leaves the bits above it as they are. *)
Theorem fill_from_lowest_set_bit_spec T v :
  in_range T v ->
  fill_from_lowest_set_bit T 0 = 0 /\
  (v <> 0 ->
   fill_from_lowest_set_bit T v = Z.lor v (v - 1) /\
   exists k, k < width T /\ lowest_set_bit v k /\
     forall i, 0 <= i ->
       Z.testbit (fill_from_lowest_set_bit T v) i = (i <=? k) || Z.testbit v i).
Proof.
  intros Hv. split.
  - unfold fill_from_lowest_set_bit, popcnt, count_bits_set.
    rewrite count_loop_eq. reflexivity.
  - intros Hnz. pose proof (fill_from_lowest_set_bit_nonzero T v Hv Hnz) as E.
    split; [exact E|].
    destruct (lowest_set_bit_in_range T v Hv Hnz) as (k & Hkw & Hk).
    exists k. split; [assumption|]. split; [assumption|].
    intros i Hi. rewrite E, Z.lor_spec, (pred_bits v k i) by assumption.
    destruct Hk as (Hk0 & Hkt & Hlow).
    destruct (Z.ltb_spec i k) as [Hlt|Hge].
    + destruct (Z.leb_spec i k); [|lia]. apply orb_true_r.
    + destruct (Z.eqb_spec i k) as [->|Hne].
      * rewrite Hkt. destruct (Z.leb_spec k k); [reflexivity|lia].
      * destruct (Z.leb_spec i k); [lia|]. apply orb_diag.
Qed.

Lemma fill_from_lowest_set_bit_spec_witness :
  fill_from_lowest_set_bit U8 0 = 0 /\
  (0x74 <> 0 ->
   fill_from_lowest_set_bit U8 0x74 = Z.lor 0x74 (0x74 - 1) /\
   exists k, k < width U8 /\ lowest_set_bit 0x74 k /\
     forall i, 0 <= i ->
       Z.testbit (fill_from_lowest_set_bit U8 0x74) i = (i <=? k) || Z.testbit 0x74 i).
Proof.
  apply (fill_from_lowest_set_bit_spec U8 0x74).
  vm_compute. split; [discriminate|reflexivity].
Defined.

(** ** Setting and clearing a run of bits *)

(** Whatever value the mask has, clearing after setting is clearing. *)
Lemma clear_after_set T v m :
  let mask := cast T m in
  cast T (Z.land (cast T (Z.lor v mask)) (cast T (arith T (Z.lnot mask)))) =
  cast T (Z.land v (cast T (arith T (Z.lnot mask)))).
Proof.
  intros M. pose proof (width_pos T). rewrite cast_arith.
  unfold cast, wrap. apply Z.bits_inj'. intros i Hi.
  rewrite !Z.testbit_mod_pow2, !Z.land_spec by lia.
  rewrite !Z.testbit_mod_pow2, Z.lor_spec, Z.lnot_spec by lia.
  destruct (i <? width T), (Z.testbit v i), (Z.testbit M i); reflexivity.
Qed.

Lemma clear_set_bits_outcome T v bits shift :
  (x <- set_bits T v bits shift ;; clear_bits T x bits shift) =
  clear_bits T v bits shift.
Proof.
  unfold set_bits, clear_bits.
  destruct (mask bits shift) as [m|]; [|reflexivity].
  simpl bind. f_equal. apply clear_after_set.
Qed.

Lemma set_bits_defined T v bits shift :
  in_range T v ->
  0 <= bits < UINTMAX_BITS -> 0 <= shift < UINTMAX_BITS ->
  bits + shift <= width T ->
  exists x, set_bits T v bits shift = Some x /\ in_range T x /\
    forall i, 0 <= i -> Z.testbit x i = in_region bits shift i || Z.testbit v i.
Proof.
  intros Hv Hb Hs Hw. pose proof (width_pos T).
  unfold set_bits. rewrite mask_defined by assumption. simpl bind.
  eexists. split; [reflexivity|]. split; [apply cast_range|].
  intros i Hi.
  rewrite cast_id by (apply lor_range; [assumption|apply cast_range]).
  rewrite Z.lor_spec, cast_mask_bits by lia. apply orb_comm.
Qed.

Lemma clear_bits_defined T v bits shift :
  in_range T v ->
  0 <= bits < UINTMAX_BITS -> 0 <= shift < UINTMAX_BITS ->
  bits + shift <= width T ->
  exists r, clear_bits T v bits shift = Some r /\ in_range T r /\
    forall i, 0 <= i -> Z.testbit r i = negb (in_region bits shift i) && Z.testbit v i.
Proof.
  intros Hv Hb Hs Hw. pose proof (width_pos T).
  unfold clear_bits. rewrite mask_defined by assumption. simpl bind.
  eexists. split; [reflexivity|]. split; [apply cast_range|].
  intros i Hi. rewrite cast_arith.
  rewrite cast_id by (apply land_range, cast_range).
  rewrite Z.land_spec. unfold cast at 1. unfold wrap.
  rewrite Z.testbit_mod_pow2, Z.lnot_spec, cast_mask_bits by lia.
  destruct (Z.ltb_spec i (width T)).
  - simpl. apply andb_comm.
  - rewrite (in_range_high_bits T v i) by assumption.
    destruct (in_region bits shift i); reflexivity.
Qed.

(** C5, at the full width: for a 64-bit value, [b = 64] and [s = 0] are
    within the width, yet [set_bits] and [clear_bits] both evaluate
    [mask(64, 0)], whose shift by the whole width of [uintmax_t] has no
    defined result; [clear_bits(set_bits(v, 64, 0), 64, 0)] is therefore
    not the value [v] with all of its 64 bits cleared. *)
Theorem clear_set_bits_full_width v :
  64 + 0 <= width U64 /\
  set_bits U64 v 64 0 = None /\
  clear_bits U64 v 64 0 = None /\
  (x <- set_bits U64 v 64 0 ;; clear_bits U64 x 64 0) <> Some 0.
Proof.
  split; [discriminate|]. split; [reflexivity|]. split; [reflexivity|].
  discriminate.
Qed.

(** Where both shifts of [mask] are defined and the run fits in [T],
    [set_bits] sets exactly the positions [s .. s + b - 1], and
    [clear_bits] applied to its result clears exactly these: it returns what
    [clear_bits] returns on [v] itself, whatever [v] holds in the run. *)
Theorem clear_after_set_bits T v b s :
  in_range T v ->
  0 <= b < UINTMAX_BITS -> 0 <= s < UINTMAX_BITS -> b + s <= width T ->
  exists x r,
    set_bits T v b s = Some x /\
    clear_bits T x b s = Some r /\
    clear_bits T v b s = Some r /\
    forall i, 0 <= i ->
      Z.testbit x i = (if in_region b s i then true else Z.testbit v i) /\
      Z.testbit r i = (if in_region b s i then false else Z.testbit v i).
Proof.
  intros Hv Hb Hs Hw.
  destruct (set_bits_defined T v b s) as (x & Hx & Hxr & Hxb); try assumption.
  destruct (clear_bits_defined T v b s) as (r & Hr & Hrr & Hrb); try assumption.
  exists x, r. split; [exact Hx|].
  pose proof (clear_set_bits_outcome T v b s) as E.
  rewrite Hx, Hr in E. simpl bind in E.
  split; [exact E|]. split; [exact Hr|].
  intros i Hi. rewrite Hxb, Hrb by assumption.
  destruct (in_region b s i); split; reflexivity.
Qed.

Lemma clear_after_set_bits_witness :
  exists x r,
    set_bits U8 0xa5 2 1 = Some x /\
    clear_bits U8 x 2 1 = Some r /\
    clear_bits U8 0xa5 2 1 = Some r /\
    forall i, 0 <= i ->
      Z.testbit x i = (if in_region 2 1 i then true else Z.testbit 0xa5 i) /\
      Z.testbit r i = (if in_region 2 1 i then false else Z.testbit 0xa5 i).
Proof.
  apply (clear_after_set_bits U8 0xa5 2 1).
  - vm_compute. split; [discriminate|reflexivity].
  - unfold UINTMAX_BITS. lia.
  - unfold UINTMAX_BITS. lia.
  - vm_compute. discriminate.
Defined.

(** ** Leading and trailing zeroes *)

Lemma mask_one i : 0 <= i < UINTMAX_BITS -> mask 1 i = Some (2 ^ i).
Proof.
  intros Hi. rewrite mask_defined by (unfold UINTMAX_BITS in *; lia).
  f_equal. unfold mask_formula. change (Z.shiftl 1 1 - 1) with 1.
  rewrite Z.shiftl_1_l. apply wrap_small. unfold UINTMAX_BITS in *. split.
  - apply Z.pow_nonneg. lia.
  - apply Z.pow_lt_mono_r; lia.
Qed.

(** The test [mask(1, i) & value] of both loops reads bit [i] of [value]. *)
Lemma land_pow2_test i x :
  0 <= i -> (Z.land (2 ^ i) x =? 0) = negb (Z.testbit x i).
Proof.
  intros Hi. destruct (Z.testbit x i) eqn:Hx; simpl.
  - apply Z.eqb_neq. intros E.
    assert (Hb : Z.testbit (Z.land (2 ^ i) x) i = true).
    { rewrite Z.land_spec, Z.pow2_bits_true, Hx by assumption. reflexivity. }
    rewrite E, Z.bits_0 in Hb. discriminate.
  - apply Z.eqb_eq. apply Z.bits_inj'. intros j Hj.
    rewrite Z.land_spec, Z.bits_0, Z.pow2_bits_eqb by assumption.
    destruct (Z.eqb_spec i j) as [->|]; [rewrite Hx|]; reflexivity.
Qed.

Lemma to_uintmax_id T v : in_range T v -> to_uintmax v = v.
Proof.
  intros [Hv0 Hv]. apply wrap_small. split; [assumption|].
  pose proof (width_le_uintmax T). pose proof (width_pos T).
  assert (2 ^ width T <= 2 ^ UINTMAX_BITS) by (apply Z.pow_le_mono_r; lia). lia.
Qed.

Lemma pow2_32 : 2 ^ UNSIGNED_BITS = 4294967296.
Proof. reflexivity. Qed.

Lemma tz_scan_spec T v (n : nat) : forall i c k,
  in_range T v ->
  0 <= i -> i + Z.of_nat n <= UINTMAX_BITS ->
  0 <= c -> c + Z.of_nat n < 2 ^ UNSIGNED_BITS ->
  i <= k < i + Z.of_nat n ->
  Z.testbit v k = true -> (forall j, i <= j < k -> Z.testbit v j = false) ->
  tz_scan v (indices i n) c = Some (c + (k - i)).
Proof.
  induction n as [|n IH]; intros i c k Hv Hi Hn Hc Hcn Hk Hkt Hlow; [lia|].
  simpl indices. simpl tz_scan.
  rewrite mask_one by lia. simpl bind.
  rewrite (to_uintmax_id T v Hv), land_pow2_test by assumption.
  destruct (Z.eq_dec i k) as [->|Hne].
  - rewrite Hkt. simpl. f_equal. lia.
  - rewrite Hlow by lia. simpl.
    pose proof pow2_32. unfold UINTMAX_BITS in *.
    rewrite to_unsigned_small by lia.
    rewrite (IH (i + 1) (c + 1) k); try assumption; try lia.
    + f_equal. lia.
    + intros j Hj. apply Hlow. lia.
Qed.

Lemma lz_scan_spec T v len (n : nat) : forall i c k,
  in_range T v -> len <= UINTMAX_BITS ->
  1 <= i -> i + Z.of_nat n <= len + 1 ->
  0 <= c -> c + Z.of_nat n < 2 ^ UNSIGNED_BITS ->
  i <= k < i + Z.of_nat n ->
  Z.testbit v (len - k) = true ->
  (forall j, i <= j < k -> Z.testbit v (len - j) = false) ->
  lz_scan v len (indices i n) c = Some (c + (k - i)).
Proof.
  induction n as [|n IH]; intros i c k Hv Hlen Hi Hn Hc Hcn Hk Hkt Hlow; [lia|].
  simpl indices. simpl lz_scan.
  pose proof pow2_32. unfold UINTMAX_BITS in *.
  rewrite to_unsigned_small by lia.
  rewrite mask_one by (unfold UINTMAX_BITS; lia). simpl bind.
  rewrite (to_uintmax_id T v Hv), land_pow2_test by lia.
  destruct (Z.eq_dec i k) as [->|Hne].
  - rewrite Hkt. simpl. f_equal. lia.
  - rewrite Hlow by lia. simpl.
    rewrite to_unsigned_small by lia.
    rewrite (IH (i + 1) (c + 1) k); try assumption; try lia.
    + f_equal. lia.
    + intros j Hj. apply Hlow. lia.
Qed.

Lemma highest_set_bit_exists T v :
  in_range T v -> v <> 0 -> highest_set_bit T v (Z.log2 v).
Proof.
  intros [Hv0 Hv] Hnz. pose proof (width_pos T).
  assert (Hpos : 0 < v) by lia.
  split; [|split].
  - split; [apply Z.log2_nonneg|]. apply Z.log2_lt_pow2; assumption.
  - apply Z.bit_log2. assumption.
  - intros j Hj. apply Z.bits_above_log2; lia.
Qed.

Lemma len_width T : to_unsigned (sizeof T * CHAR_BIT) = width T.
Proof. destruct T; reflexivity. Qed.

Lemma leading_zeroes_count_nonzero T v :
  in_range T v -> v <> 0 ->
  leading_zeroes_count T v = Some (width T - 1 - Z.log2 v).
Proof.
  intros Hv Hnz. pose proof (width_pos T). pose proof (width_le_uintmax T).
  destruct (highest_set_bit_exists T v Hv Hnz) as (Hk & Hkt & Hhigh).
  unfold leading_zeroes_count. destruct (Z.eqb_spec v 0); [contradiction|].
  rewrite len_width. cbv zeta.
  pose proof pow2_32. unfold UINTMAX_BITS in *.
  rewrite (lz_scan_spec T v (width T) _ 1 0 (width T - Z.log2 v));
    try assumption; try (rewrite Z2Nat.id by lia); unfold UINTMAX_BITS; try lia.
  - f_equal. lia.
  - rewrite <- Hkt. f_equal. lia.
  - intros j Hj. apply Hhigh. lia.
Qed.

Lemma trailing_zeroes_count_nonzero T v k :
  in_range T v -> lowest_set_bit v k -> k < width T ->
  trailing_zeroes_count T v = Some k.
Proof.
  intros Hv (Hk0 & Hkt & Hlow) Hkw.
  pose proof (width_pos T). pose proof (width_le_uintmax T).
  assert (Hnz : v <> 0) by (intros ->; rewrite Z.bits_0 in Hkt; discriminate).
  unfold trailing_zeroes_count. destruct (Z.eqb_spec v 0); [contradiction|].
  rewrite len_width. cbv zeta.
  pose proof pow2_32. unfold UINTMAX_BITS in *.
  rewrite (tz_scan_spec T v _ 0 0 k);
    try assumption; try (rewrite Z2Nat.id by lia); unfold UINTMAX_BITS; try lia.
  f_equal. lia.
Qed.

(** C4: both counts return the width [W] for the value 0.  For a nonzero
    value, [leading_zeroes_count] returns the number [lz] of 0-bits above
    the highest set bit, which sits at position [W - 1 - lz], and
    [trailing_zeroes_count] returns the number [tz] of 0-bits below the
    lowest set bit, which sits at position [tz]. *)
Theorem zeroes_counts T v :
  in_range T v ->
  leading_zeroes_count T 0 = Some (width T) /\
  trailing_zeroes_count T 0 = Some (width T) /\
  (v <> 0 ->
   exists lz tz,
     leading_zeroes_count T v = Some lz /\
     trailing_zeroes_count T v = Some tz /\
     0 <= lz < width T /\ 0 <= tz < width T /\
     highest_set_bit T v (width T - 1 - lz) /\
     lowest_set_bit v tz).
Proof.
  intros Hv. split; [destruct T; reflexivity|]. split; [destruct T; reflexivity|].
  intros Hnz.
  pose proof (highest_set_bit_exists T v Hv Hnz) as Hh.
  destruct (lowest_set_bit_in_range T v Hv Hnz) as (k & Hkw & Hk).
  exists (width T - 1 - Z.log2 v), k.
  split; [apply leading_zeroes_count_nonzero; assumption|].
  split; [apply (trailing_zeroes_count_nonzero T v k); assumption|].
  pose proof Hh as (Hr & _). pose proof Hk as (Hk0 & _).
  split; [lia|]. split; [lia|]. split; [|assumption].
  replace (width T - 1 - (width T - 1 - Z.log2 v)) with (Z.log2 v) by lia.
  assumption.
Qed.

Lemma zeroes_counts_witness :
  leading_zeroes_count U8 0 = Some (width U8) /\
  trailing_zeroes_count U8 0 = Some (width U8) /\
  (0x2c <> 0 ->
   exists lz tz,
     leading_zeroes_count U8 0x2c = Some lz /\
     trailing_zeroes_count U8 0x2c = Some tz /\
     0 <= lz < width U8 /\ 0 <= tz < width U8 /\
     highest_set_bit U8 0x2c (width U8 - 1 - lz) /\
     lowest_set_bit 0x2c tz).
Proof.
  apply (zeroes_counts U8 0x2c).
  vm_compute. split; [discriminate|reflexivity].
Defined.

(** * Further properties of the header's functions *)

(** ** Bits of a successor *)

Lemma lowest_clear_bit_lnot v k : lowest_clear_bit v k -> lowest_set_bit (Z.lnot v) k.
Proof.
  intros (Hk0 & Hk & Hlow). split; [assumption|]. split.
  - rewrite Z.lnot_spec, Hk by assumption. reflexivity.
  - intros j Hj. rewrite Z.lnot_spec, Hlow by lia. reflexivity.
Qed.

Lemma succ_bits v k i :
  lowest_clear_bit v k -> 0 <= i ->
  Z.testbit (v + 1) i =
  if i <? k then false else if i =? k then true else Z.testbit v i.
Proof.
  intros Hk Hi.
  replace (v + 1) with (Z.lnot (Z.lnot v - 1))
    by (rewrite !Z.lnot_eq_pred_opp; lia).
  rewrite Z.lnot_spec, (pred_bits _ k i (lowest_clear_bit_lnot v k Hk)) by assumption.
  cases_cmp; try reflexivity.
  rewrite Z.lnot_spec by assumption. apply negb_involutive.
Qed.

Lemma cast_lnot_value T v : in_range T v -> cast T (Z.lnot v) = all_ones T - v.
Proof.
  intros [Hv0 Hv]. unfold cast, wrap, all_ones. symmetry.
  apply (Z.mod_unique_pos _ _ (-1)); rewrite ?Z.lnot_eq_pred_opp; lia.
Qed.

Lemma lowest_clear_bit_in_range T v :
  in_range T v -> v <> all_ones T ->
  exists k, k < width T /\ lowest_clear_bit v k.
Proof.
  intros Hv Hne. pose proof (width_pos T).
  assert (Hw : in_range T (cast T (Z.lnot v))) by apply cast_range.
  assert (Hnz : cast T (Z.lnot v) <> 0).
  { rewrite cast_lnot_value by assumption. lia. }
  destruct (lowest_set_bit_in_range T _ Hw Hnz) as (k & Hkw & Hk0 & Hk & Hlow).
  assert (Hbit : forall i, 0 <= i < width T ->
            Z.testbit (cast T (Z.lnot v)) i = negb (Z.testbit v i)).
  { intros i Hi. unfold cast, wrap.
    rewrite Z.testbit_mod_pow2, Z.lnot_spec by lia.
    destruct (Z.ltb_spec i (width T)); [reflexivity|lia]. }
  exists k. split; [assumption|]. split; [assumption|]. split.
  - rewrite Hbit in Hk by lia. apply negb_true_iff. assumption.
  - intros j Hj. specialize (Hlow j Hj). rewrite Hbit in Hlow by lia.
    apply negb_false_iff. assumption.
Qed.

Lemma lowest_clear_bit_unique v k k' :
  lowest_clear_bit v k -> lowest_clear_bit v k' -> k = k'.
Proof.
  intros H H'. apply (lowest_set_bit_unique (Z.lnot v));
    apply lowest_clear_bit_lnot; assumption.
Qed.

Lemma set_bit_below_width T v k :
  in_range T v -> 0 <= k -> Z.testbit v k = true -> k < width T.
Proof.
  intros Hv Hk0 Hk. destruct (Z_lt_le_dec k (width T)) as [|Hge]; [assumption|].
  rewrite (in_range_high_bits T v k Hv Hge) in Hk. discriminate.
Qed.

Lemma disjoint_add a b : Z.land a b = 0 -> a + b = Z.lor a b.
Proof. intros H. pose proof (Z.add_lor_land a b). lia. Qed.

Lemma pow2_range T k : 0 <= k < width T -> in_range T (2 ^ k).
Proof.
  intros Hk. split; [apply Z.pow_nonneg; lia|]. apply Z.pow_lt_mono_r; lia.
Qed.

Lemma all_ones_bits T i : 0 <= i -> Z.testbit (all_ones T) i = (i <? width T).
Proof.
  intros Hi. pose proof (width_pos T). unfold all_ones.
  rewrite Z.sub_1_r, <- Z.ones_equiv. apply Z.testbit_ones_nonneg; lia.
Qed.

(** ** The lowest set bit *)

Lemma isolate_lowest_set_bit_pow2 T v k :
  in_range T v -> lowest_set_bit v k -> isolate_lowest_set_bit T v = 2 ^ k.
Proof.
  intros Hv Hk. pose proof Hk as (Hk0 & Hkt & Hlow). pose proof (width_pos T).
  pose proof (set_bit_below_width T v k Hv Hk0 Hkt) as Hkw.
  unfold isolate_lowest_set_bit. rewrite cast_arith.
  rewrite cast_id by (apply land_range, cast_range).
  apply Z.bits_inj'. intros i Hi. unfold cast, wrap.
  rewrite Z.land_spec, Z.testbit_mod_pow2, Z.bits_opp by lia.
  rewrite <- Z.sub_1_r, (pred_bits v k i Hk Hi), Z.pow2_bits_eqb by assumption.
  rewrite (Z.eqb_sym k i).
  destruct (Z.ltb_spec i k) as [Hlt|Hge].
  - rewrite Hlow by lia. destruct (Z.eqb_spec i k); [lia|reflexivity].
  - destruct (Z.eqb_spec i k) as [->|Hne].
    + rewrite Hkt. destruct (Z.ltb_spec k (width T)); [reflexivity|lia].
    + simpl. destruct (i <? width T), (Z.testbit v i); reflexivity.
Qed.

Lemma count_bits_set_pow2 T k : 0 <= k < width T -> count_bits_set T (2 ^ k) = 1.
Proof.
  intros Hk. pose proof (width_pos T).
  rewrite count_bits_set_bit_count by (apply pow2_range; assumption).
  unfold bit_count. rewrite (ones_in_region _ _ 1 k); [lia|lia|lia|].
  intros i Hi. rewrite Z.pow2_bits_eqb by lia. unfold in_region.
  cases_cmp; try lia; reflexivity.
Qed.

(** [isolate_lowest_set_bit] returns 0 for 0 and, for any other value, the
    power of two of its lowest set bit, a value with exactly one set bit. *)
Theorem isolate_lowest_set_bit_spec T v :
  in_range T v ->
  isolate_lowest_set_bit T 0 = 0 /\
  (v <> 0 ->
   exists k, 0 <= k < width T /\ lowest_set_bit v k /\
     isolate_lowest_set_bit T v = 2 ^ k /\
     count_bits_set T (isolate_lowest_set_bit T v) = 1).
Proof.
  intros Hv. split; [destruct T; reflexivity|]. intros Hnz.
  destruct (lowest_set_bit_in_range T v Hv Hnz) as (k & Hkw & Hk).
  pose proof Hk as (Hk0 & _).
  exists k. split; [lia|]. split; [assumption|].
  rewrite (isolate_lowest_set_bit_pow2 T v k) by assumption.
  split; [reflexivity|]. apply count_bits_set_pow2. lia.
Qed.

Lemma isolate_lowest_set_bit_spec_witness :
  isolate_lowest_set_bit U8 0 = 0 /\
  (0xe2 <> 0 ->
   exists k, 0 <= k < width U8 /\ lowest_set_bit 0xe2 k /\
     isolate_lowest_set_bit U8 0xe2 = 2 ^ k /\
     count_bits_set U8 (isolate_lowest_set_bit U8 0xe2) = 1).
Proof.
  apply (isolate_lowest_set_bit_spec U8 0xe2).
  vm_compute. split; [discriminate|reflexivity].
Defined.

Lemma clear_lowest_set_bit_bits T v k i :
  in_range T v -> lowest_set_bit v k -> 0 <= i ->
  Z.testbit (clear_lowest_set_bit T v) i =
  if i =? k then false else Z.testbit v i.
Proof.
  intros Hv Hk Hi. change (clear_lowest_set_bit T v) with (next T v).
  rewrite (next_bits T v k i) by assumption.
  destruct (i =? k); simpl; [apply andb_false_r|apply andb_true_r].
Qed.

(** Every value is the sum of its lowest set bit and of the value with that
    bit cleared: [clear_lowest_set_bit(v) + isolate_lowest_set_bit(v) = v],
    the two parts having no bit in common. *)
Theorem clear_plus_isolate_lowest_set_bit T v :
  in_range T v ->
  clear_lowest_set_bit T v + isolate_lowest_set_bit T v = v /\
  Z.land (clear_lowest_set_bit T v) (isolate_lowest_set_bit T v) = 0.
Proof.
  intros Hv. destruct (Z.eq_dec v 0) as [->|Hnz].
  { destruct T; split; reflexivity. }
  destruct (lowest_set_bit_in_range T v Hv Hnz) as (k & Hkw & Hk).
  pose proof Hk as (Hk0 & Hkt & _).
  rewrite (isolate_lowest_set_bit_pow2 T v k) by assumption.
  assert (Hland : Z.land (clear_lowest_set_bit T v) (2 ^ k) = 0).
  { apply Z.bits_inj'. intros i Hi.
    rewrite Z.land_spec, (clear_lowest_set_bit_bits T v k i), Z.pow2_bits_eqb,
      Z.bits_0 by assumption.
    rewrite (Z.eqb_sym k i). destruct (i =? k); [reflexivity|apply andb_false_r]. }
  split; [|exact Hland].
  rewrite (disjoint_add _ _ Hland). apply Z.bits_inj'. intros i Hi.
  rewrite Z.lor_spec, (clear_lowest_set_bit_bits T v k i), Z.pow2_bits_eqb
    by assumption.
  rewrite (Z.eqb_sym k i). destruct (Z.eqb_spec i k) as [->|Hne].
  - rewrite Hkt. reflexivity.
  - apply orb_false_r.
Qed.

Lemma clear_plus_isolate_lowest_set_bit_witness :
  clear_lowest_set_bit U16 0xe2e0 + isolate_lowest_set_bit U16 0xe2e0 = 0xe2e0 /\
  Z.land (clear_lowest_set_bit U16 0xe2e0) (isolate_lowest_set_bit U16 0xe2e0) = 0.
Proof.
  apply (clear_plus_isolate_lowest_set_bit U16 0xe2e0).
  vm_compute. split; [discriminate|reflexivity].
Defined.

(** [clear_lowest_set_bit] changes one position only: the lowest set bit
    becomes 0 and every other bit of the value stays as it is. *)
Theorem clear_lowest_set_bit_exact T v k :
  in_range T v -> lowest_set_bit v k ->
  Z.testbit (clear_lowest_set_bit T v) k = false /\
  forall i, 0 <= i -> i <> k ->
    Z.testbit (clear_lowest_set_bit T v) i = Z.testbit v i.
Proof.
  intros Hv Hk. pose proof Hk as (Hk0 & _). split.
  - rewrite (clear_lowest_set_bit_bits T v k k), Z.eqb_refl by assumption.
    reflexivity.
  - intros i Hi Hne. rewrite (clear_lowest_set_bit_bits T v k i) by assumption.
    destruct (Z.eqb_spec i k); [contradiction|reflexivity].
Qed.

Lemma clear_lowest_set_bit_exact_witness :
  Z.testbit (clear_lowest_set_bit U8 0xe2) 1 = false /\
  forall i, 0 <= i -> i <> 1 ->
    Z.testbit (clear_lowest_set_bit U8 0xe2) i = Z.testbit 0xe2 i.
Proof.
  apply (clear_lowest_set_bit_exact U8 0xe2 1).
  - vm_compute. split; [discriminate|reflexivity].
  - split; [lia|]. split; [reflexivity|].
    intros j Hj. replace j with 0 by lia. reflexivity.
Defined.

(** ** The lowest clear bit *)

Lemma succ_range T v : in_range T v -> v <> all_ones T -> in_range T (v + 1).
Proof. unfold in_range, all_ones. lia. Qed.

Lemma set_lowest_clear_bit_bits T v k i :
  in_range T v -> lowest_clear_bit v k -> k < width T -> 0 <= i ->
  Z.testbit (set_lowest_clear_bit T v) i =
  if i =? k then true else Z.testbit v i.
Proof.
  intros Hv Hk Hkw Hi. pose proof Hk as (Hk0 & Hkf & Hlow).
  assert (Hne : v <> all_ones T).
  { intros ->. rewrite all_ones_bits in Hkf by assumption.
    destruct (Z.ltb_spec k (width T)); [discriminate|lia]. }
  rewrite set_lowest_clear_bit_eq, cast_id by (try apply succ_range; assumption).
  rewrite Z.lor_spec, (succ_bits v k i Hk Hi).
  destruct (Z.ltb_spec i k) as [Hlt|Hge].
  - rewrite Hlow by lia. destruct (Z.eqb_spec i k); [lia|reflexivity].
  - destruct (Z.eqb_spec i k); [apply orb_true_r|apply orb_diag].
Qed.

(** On any value but the all-ones one, [set_lowest_clear_bit] sets the
    lowest clear bit and nothing else: the value grows by that power of two
    and its population count by one. *)
Theorem set_lowest_clear_bit_spec T v :
  in_range T v -> v <> all_ones T ->
  exists k, 0 <= k < width T /\ lowest_clear_bit v k /\
    (forall i, 0 <= i ->
       Z.testbit (set_lowest_clear_bit T v) i =
       if i =? k then true else Z.testbit v i) /\
    set_lowest_clear_bit T v = v + 2 ^ k /\
    count_bits_set T (set_lowest_clear_bit T v) = count_bits_set T v + 1.
Proof.
  intros Hv Hne. pose proof (width_pos T).
  destruct (lowest_clear_bit_in_range T v Hv Hne) as (k & Hkw & Hk).
  pose proof Hk as (Hk0 & Hkf & _).
  exists k. split; [lia|]. split; [assumption|].
  assert (Hbits : forall i, 0 <= i ->
            Z.testbit (set_lowest_clear_bit T v) i =
            if i =? k then true else Z.testbit v i).
  { intros i Hi. apply set_lowest_clear_bit_bits; assumption. }
  split; [exact Hbits|]. split.
  - assert (Hland : Z.land v (2 ^ k) = 0).
    { apply Z.bits_inj'. intros i Hi.
      rewrite Z.land_spec, Z.pow2_bits_eqb, Z.bits_0 by assumption.
      destruct (Z.eqb_spec k i) as [<-|]; [rewrite Hkf; reflexivity|].
      apply andb_false_r. }
    rewrite (disjoint_add _ _ Hland). apply Z.bits_inj'. intros i Hi.
    rewrite Hbits, Z.lor_spec, Z.pow2_bits_eqb by assumption.
    rewrite (Z.eqb_sym k i).
    destruct (i =? k); symmetry; [apply orb_true_r|apply orb_false_r].
  - rewrite !count_bits_set_bit_count by (assumption || apply cast_range).
    unfold bit_count. apply (ones_in_clear _ _ _ k).
    + lia.
    + rewrite Hbits, Z.eqb_refl by assumption. reflexivity.
    + assumption.
    + intros i Hi Hik. rewrite Hbits by lia.
      destruct (Z.eqb_spec i k); [contradiction|reflexivity].
Qed.

Lemma set_lowest_clear_bit_spec_witness :
  exists k, 0 <= k < width U8 /\ lowest_clear_bit 0xe3 k /\
    (forall i, 0 <= i ->
       Z.testbit (set_lowest_clear_bit U8 0xe3) i =
       if i =? k then true else Z.testbit 0xe3 i) /\
    set_lowest_clear_bit U8 0xe3 = 0xe3 + 2 ^ k /\
    count_bits_set U8 (set_lowest_clear_bit U8 0xe3) = count_bits_set U8 0xe3 + 1.
Proof.
  apply (set_lowest_clear_bit_spec U8 0xe3).
  - vm_compute. split; [discriminate|reflexivity].
  - discriminate.
Defined.

(** [isolate_lowest_clear_bit] returns the all-ones value with the lowest
    clear bit of its argument taken out, and the all-ones value itself when
    the argument has no clear bit. *)
Theorem isolate_lowest_clear_bit_spec T v :
  in_range T v ->
  isolate_lowest_clear_bit T (all_ones T) = all_ones T /\
  (v <> all_ones T ->
   exists k, 0 <= k < width T /\ lowest_clear_bit v k /\
     isolate_lowest_clear_bit T v = all_ones T - 2 ^ k /\
     forall i, 0 <= i ->
       Z.testbit (isolate_lowest_clear_bit T v) i = (i <? width T) && negb (i =? k)).
Proof.
  intros Hv. split; [destruct T; reflexivity|]. intros Hne.
  pose proof (width_pos T).
  destruct (lowest_clear_bit_in_range T v Hv Hne) as (k & Hkw & Hk).
  pose proof Hk as (Hk0 & Hkf & Hlow).
  exists k. split; [lia|]. split; [assumption|].
  assert (Hbits : forall i, 0 <= i ->
            Z.testbit (isolate_lowest_clear_bit T v) i =
            (i <? width T) && negb (i =? k)).
  { intros i Hi. unfold isolate_lowest_clear_bit.
    rewrite cast_arith, cast_lnot_arith.
    rewrite cast_id by (apply lor_range; [assumption|apply cast_range]).
    rewrite Z.lor_spec. unfold cast, wrap.
    rewrite Z.testbit_mod_pow2, Z.lnot_spec, (succ_bits v k i Hk Hi) by lia.
    destruct (Z.ltb_spec i k) as [Hlt|Hge].
    - rewrite Hlow by lia.
      destruct (Z.eqb_spec i k); [lia|].
      destruct (Z.ltb_spec i (width T)); [reflexivity|lia].
    - destruct (Z.eqb_spec i k) as [->|Hik].
      + rewrite Hkf. simpl. rewrite !andb_false_r. reflexivity.
      + destruct (Z.ltb_spec i (width T)) as [|Hiw].
        * simpl. apply orb_negb_r.
        * rewrite (in_range_high_bits T v i) by assumption. reflexivity. }
  split; [|exact Hbits].
  assert (Hland : Z.land (isolate_lowest_clear_bit T v) (2 ^ k) = 0).
  { apply Z.bits_inj'. intros i Hi.
    rewrite Z.land_spec, Hbits, Z.pow2_bits_eqb, Z.bits_0 by assumption.
    rewrite (Z.eqb_sym k i).
    destruct (i =? k); [rewrite andb_false_r; reflexivity|apply andb_false_r]. }
  assert (Hsum : isolate_lowest_clear_bit T v + 2 ^ k = all_ones T); [|lia].
  rewrite (disjoint_add _ _ Hland). apply Z.bits_inj'. intros i Hi.
  rewrite Z.lor_spec, Hbits, Z.pow2_bits_eqb, all_ones_bits by assumption.
  rewrite (Z.eqb_sym k i).
  destruct (Z.eqb_spec i k) as [->|Hik].
  - destruct (Z.ltb_spec k (width T)); [reflexivity|lia].
  - simpl. rewrite andb_true_r. apply orb_false_r.
Qed.

Lemma isolate_lowest_clear_bit_spec_witness :
  isolate_lowest_clear_bit U8 (all_ones U8) = all_ones U8 /\
  (0xe3 <> all_ones U8 ->
   exists k, 0 <= k < width U8 /\ lowest_clear_bit 0xe3 k /\
     isolate_lowest_clear_bit U8 0xe3 = all_ones U8 - 2 ^ k /\
     forall i, 0 <= i ->
       Z.testbit (isolate_lowest_clear_bit U8 0xe3) i = (i <? width U8) && negb (i =? k)).
Proof.
  apply (isolate_lowest_clear_bit_spec U8 0xe3).
  vm_compute. split; [discriminate|reflexivity].
Defined.

(** ** Extremes of the population count *)

Lemma ones_in_full n v :
  ones_in n v = Z.of_nat n ->
  forall i, 0 <= i < Z.of_nat n -> Z.testbit v i = true.
Proof.
  induction n as [|n IH]; intros H i Hi; [lia|].
  simpl ones_in in H. pose proof (ones_in_bounds n v).
  destruct (Z.testbit v (Z.of_nat n)) eqn:Hn; simpl Z.b2z in H; [|lia].
  destruct (Z.eq_dec i (Z.of_nat n)) as [->|Hne]; [assumption|].
  apply IH; lia.
Qed.

Lemma bit_count_full T v : in_range T v -> bit_count T v = width T -> v = all_ones T.
Proof.
  intros Hv H. pose proof (width_pos T).
  apply Z.bits_inj'. intros i Hi. rewrite all_ones_bits by assumption.
  destruct (Z.ltb_spec i (width T)).
  - apply (ones_in_full (Z.to_nat (width T))); [|lia].
    unfold bit_count in H. lia.
  - apply (in_range_high_bits T); assumption.
Qed.

Lemma count_bits_set_all_ones T : count_bits_set T (all_ones T) = width T.
Proof. destruct T; vm_compute; reflexivity. Qed.

(** The population count of a value of [T] lies between 0 and the width; it
    is 0 for the value 0 only and it is the width for the all-ones value
    only. *)
Theorem count_bits_set_extremes T v :
  in_range T v ->
  0 <= count_bits_set T v <= width T /\
  (count_bits_set T v = 0 <-> v = 0) /\
  (count_bits_set T v = width T <-> v = all_ones T).
Proof.
  intros Hv. rewrite count_bits_set_bit_count by assumption.
  split; [apply bit_count_bounds|]. split; split.
  - apply bit_count_zero. assumption.
  - intros ->. unfold bit_count. apply ones_in_zero.
  - apply bit_count_full. assumption.
  - intros ->. rewrite <- count_bits_set_bit_count by apply all_ones_range.
    apply count_bits_set_all_ones.
Qed.

Lemma count_bits_set_extremes_witness :
  0 <= count_bits_set U32 0xf0f0 <= width U32 /\
  (count_bits_set U32 0xf0f0 = 0 <-> 0xf0f0 = 0) /\
  (count_bits_set U32 0xf0f0 = width U32 <-> 0xf0f0 = all_ones U32).
Proof.
  apply (count_bits_set_extremes U32 0xf0f0).
  vm_compute. split; [discriminate|reflexivity].
Defined.

(** ** Filling from the lowest clear bit *)

Lemma fill_from_lowest_clear_bit_all_ones T :
  fill_from_lowest_clear_bit T (all_ones T) = all_ones T.
Proof.
  unfold fill_from_lowest_clear_bit, popcnt.
  rewrite count_bits_set_all_ones. fold (width T). rewrite Z.eqb_refl. reflexivity.
Qed.

Lemma fill_from_lowest_clear_bit_other T v :
  in_range T v -> v <> all_ones T ->
  fill_from_lowest_clear_bit T v = Z.land v (v + 1).
Proof.
  intros Hv Hne. unfold fill_from_lowest_clear_bit, popcnt. fold (width T).
  destruct (Z.eqb_spec (count_bits_set T v) (width T)) as [E|_].
  - rewrite count_bits_set_bit_count in E by assumption.
    elim Hne. apply bit_count_full; assumption.
  - rewrite cast_arith, (cast_id T (v + 1)) by (apply succ_range; assumption).
    apply cast_id, land_range, succ_range; assumption.
Qed.

Lemma fill_from_lowest_clear_bit_bits T v k i :
  in_range T v -> lowest_clear_bit v k -> k < width T -> 0 <= i ->
  Z.testbit (fill_from_lowest_clear_bit T v) i = (k <? i) && Z.testbit v i.
Proof.
  intros Hv Hk Hkw Hi. pose proof Hk as (Hk0 & Hkf & Hlow).
  assert (Hne : v <> all_ones T).
  { intros ->. rewrite all_ones_bits in Hkf by assumption.
    destruct (Z.ltb_spec k (width T)); [discriminate|lia]. }
  rewrite fill_from_lowest_clear_bit_other by assumption.
  rewrite Z.land_spec, (succ_bits v k i Hk Hi).
  destruct (Z.ltb_spec i k) as [Hlt|Hge].
  - destruct (Z.ltb_spec k i); [lia|]. apply andb_false_r.
  - destruct (Z.eqb_spec i k) as [->|Hik].
    + rewrite Hkf. destruct (Z.ltb_spec k k); [lia|reflexivity].
    + destruct (Z.ltb_spec k i); [|lia]. apply andb_diag.
Qed.

(** [fill_from_lowest_clear_bit] returns the all-ones value unchanged; on
    every other value it is [value & (value + 1)], which clears every bit
    below the lowest clear bit and keeps the bits above it, so that the
    result never exceeds the value. *)
Theorem fill_from_lowest_clear_bit_spec T v :
  in_range T v ->
  fill_from_lowest_clear_bit T (all_ones T) = all_ones T /\
  (v <> all_ones T ->
   fill_from_lowest_clear_bit T v = Z.land v (v + 1) /\
   fill_from_lowest_clear_bit T v <= v /\
   exists k, 0 <= k < width T /\ lowest_clear_bit v k /\
     forall i, 0 <= i ->
       Z.testbit (fill_from_lowest_clear_bit T v) i = (k <? i) && Z.testbit v i).
Proof.
  intros Hv. split; [apply fill_from_lowest_clear_bit_all_ones|]. intros Hne.
  pose proof (fill_from_lowest_clear_bit_other T v Hv Hne) as E.
  split; [exact E|]. split.
  - rewrite E. apply land_le_l, Hv.
  - destruct (lowest_clear_bit_in_range T v Hv Hne) as (k & Hkw & Hk).
    pose proof Hk as (Hk0 & _).
    exists k. split; [lia|]. split; [assumption|].
    intros i Hi. apply fill_from_lowest_clear_bit_bits; assumption.
Qed.

Lemma fill_from_lowest_clear_bit_spec_witness :
  fill_from_lowest_clear_bit U8 (all_ones U8) = all_ones U8 /\
  (0xeb <> all_ones U8 ->
   fill_from_lowest_clear_bit U8 0xeb = Z.land 0xeb (0xeb + 1) /\
   fill_from_lowest_clear_bit U8 0xeb <= 0xeb /\
   exists k, 0 <= k < width U8 /\ lowest_clear_bit 0xeb k /\
     forall i, 0 <= i ->
       Z.testbit (fill_from_lowest_clear_bit U8 0xeb) i = (k <? i) && Z.testbit 0xeb i).
Proof.
  apply (fill_from_lowest_clear_bit_spec U8 0xeb).
  vm_compute. split; [discriminate|reflexivity].
Defined.

Lemma fill_from_lowest_clear_bit_range T v :
  in_range T v -> in_range T (fill_from_lowest_clear_bit T v).
Proof.
  intros Hv. unfold fill_from_lowest_clear_bit.
  destruct (popcnt T v =? sizeof T * CHAR_BIT); [assumption|apply cast_range].
Qed.

(** [fill_from_lowest_clear_bit] is idempotent: applied to its own result
    it changes nothing. *)
Theorem fill_from_lowest_clear_bit_idempotent T v :
  in_range T v ->
  fill_from_lowest_clear_bit T (fill_from_lowest_clear_bit T v) =
  fill_from_lowest_clear_bit T v.
Proof.
  intros Hv. pose proof (width_pos T).
  destruct (Z.eq_dec v (all_ones T)) as [->|Hne].
  { rewrite !fill_from_lowest_clear_bit_all_ones. reflexivity. }
  destruct (lowest_clear_bit_in_range T v Hv Hne) as (k & Hkw & Hk).
  pose proof Hk as (Hk0 & _).
  set (r := fill_from_lowest_clear_bit T v).
  assert (Hr : forall i, 0 <= i -> Z.testbit r i = (k <? i) && Z.testbit v i).
  { intros i Hi. apply fill_from_lowest_clear_bit_bits; assumption. }
  assert (Hr0 : lowest_clear_bit r 0).
  { split; [lia|]. split; [|intros; lia].
    rewrite Hr by lia. destruct (Z.ltb_spec k 0); [lia|reflexivity]. }
  apply Z.bits_inj'. intros i Hi.
  rewrite (fill_from_lowest_clear_bit_bits T r 0 i)
    by (try apply fill_from_lowest_clear_bit_range; assumption || lia).
  destruct (Z.ltb_spec 0 i); [reflexivity|].
  replace i with 0 by lia. destruct Hr0 as (_ & -> & _). reflexivity.
Qed.

Lemma fill_from_lowest_clear_bit_idempotent_witness :
  fill_from_lowest_clear_bit U8 (fill_from_lowest_clear_bit U8 0xeb) =
  fill_from_lowest_clear_bit U8 0xeb.
Proof.
  apply (fill_from_lowest_clear_bit_idempotent U8 0xeb).
  vm_compute. split; [discriminate|reflexivity].
Defined.

(** ** Filling from the lowest set bit, again *)

(** [fill_from_lowest_set_bit] never lowers a value and is idempotent. *)
Theorem fill_from_lowest_set_bit_idempotent T v :
  in_range T v ->
  v <= fill_from_lowest_set_bit T v /\
  in_range T (fill_from_lowest_set_bit T v) /\
  fill_from_lowest_set_bit T (fill_from_lowest_set_bit T v) =
  fill_from_lowest_set_bit T v.
Proof.
  intros Hv.
  assert (H0 : fill_from_lowest_set_bit T 0 = 0) by (destruct T; reflexivity).
  destruct (Z.eq_dec v 0) as [->|Hnz].
  { rewrite !H0. split; [lia|]. split; [|reflexivity].
    pose proof (width_pos T). split; [lia|]. apply Z.pow_pos_nonneg; lia. }
  pose proof (fill_from_lowest_set_bit_nonzero T v Hv Hnz) as E.
  assert (Hp : in_range T (v - 1)) by (unfold in_range in *; lia).
  assert (Hge : v <= fill_from_lowest_set_bit T v).
  { rewrite E. apply lor_ge_l. apply Hp. }
  assert (Hr : in_range T (fill_from_lowest_set_bit T v)).
  { rewrite E. apply lor_range; assumption. }
  split; [exact Hge|]. split; [exact Hr|].
  set (r := fill_from_lowest_set_bit T v) in *.
  assert (Hrnz : r <> 0) by (unfold in_range in Hv; lia).
  destruct (lowest_set_bit_in_range T v Hv Hnz) as (k & Hkw & Hk).
  pose proof Hk as (Hk0 & Hkt & _).
  assert (Hr0 : lowest_set_bit r 0).
  { split; [lia|]. split; [|intros; lia].
    rewrite E, Z.lor_spec, (pred_bits v k 0) by (assumption || lia).
    destruct (Z.ltb_spec 0 k); [apply orb_true_r|].
    replace k with 0 in Hkt by lia. rewrite Hkt. reflexivity. }
  rewrite (fill_from_lowest_set_bit_nonzero T r Hr Hrnz).
  apply Z.bits_inj'. intros i Hi.
  rewrite Z.lor_spec, (pred_bits r 0 i Hr0 Hi).
  destruct (Z.ltb_spec i 0); [lia|].
  destruct (Z.eqb_spec i 0); [apply orb_false_r|apply orb_diag].
Qed.

Lemma fill_from_lowest_set_bit_idempotent_witness :
  0x74 <= fill_from_lowest_set_bit U8 0x74 /\
  in_range U8 (fill_from_lowest_set_bit U8 0x74) /\
  fill_from_lowest_set_bit U8 (fill_from_lowest_set_bit U8 0x74) =
  fill_from_lowest_set_bit U8 0x74.
Proof.
  apply (fill_from_lowest_set_bit_idempotent U8 0x74).
  vm_compute. split; [discriminate|reflexivity].
Defined.

(** ** What [set_bits] and [clear_bits] do to each position *)

(** The mask converted to [T], without any condition on the run fitting. *)
Lemma cast_mask_bits_any T bits shift i :
  0 <= bits -> 0 <= shift -> 0 <= i ->
  Z.testbit (cast T (mask_formula bits shift)) i =
  (i <? width T) && in_region bits shift i.
Proof.
  intros Hb Hs Hi. pose proof (width_pos T). pose proof (width_le_uintmax T).
  unfold cast, wrap. rewrite Z.testbit_mod_pow2, mask_formula_bits by lia.
  unfold UINTMAX_BITS in *.
  destruct (Z.ltb_spec i (width T)); [|reflexivity].
  destruct (Z.ltb_spec i 64); [reflexivity|lia].
Qed.

(** Wherever [mask] is defined, [set_bits] returns a value of [T], not
    below its argument, in which the positions of the run that lie within
    the width are 1 and every other bit is the argument's; the part of a
    run that reaches beyond the width of [T] is dropped. *)
Theorem set_bits_spec T v bits shift :
  in_range T v -> 0 <= bits < UINTMAX_BITS -> 0 <= shift < UINTMAX_BITS ->
  exists x,
    set_bits T v bits shift = Some x /\
    in_range T x /\ v <= x /\
    forall i, 0 <= i ->
      Z.testbit x i = Z.testbit v i || ((i <? width T) && in_region bits shift i).
Proof.
  intros Hv Hb Hs. unfold set_bits. rewrite mask_defined by assumption.
  simpl bind. eexists. split; [reflexivity|].
  pose proof (cast_range T (mask_formula bits shift)) as Hm.
  rewrite cast_id by (apply lor_range; assumption).
  split; [apply lor_range; assumption|]. split; [apply lor_ge_l, Hm|].
  intros i Hi. rewrite Z.lor_spec, cast_mask_bits_any by lia. reflexivity.
Qed.

Lemma set_bits_spec_witness :
  exists x,
    set_bits U8 0x81 6 4 = Some x /\
    in_range U8 x /\ 0x81 <= x /\
    forall i, 0 <= i ->
      Z.testbit x i = Z.testbit 0x81 i || ((i <? width U8) && in_region 6 4 i).
Proof.
  apply (set_bits_spec U8 0x81 6 4).
  - vm_compute. split; [discriminate|reflexivity].
  - unfold UINTMAX_BITS. lia.
  - unfold UINTMAX_BITS. lia.
Defined.

(** Wherever [mask] is defined, [clear_bits] returns a value of [T], not
    above its argument, in which the positions of the run are 0 and every
    other bit is the argument's. *)
Theorem clear_bits_spec T v bits shift :
  in_range T v -> 0 <= bits < UINTMAX_BITS -> 0 <= shift < UINTMAX_BITS ->
  exists r,
    clear_bits T v bits shift = Some r /\
    in_range T r /\ r <= v /\
    forall i, 0 <= i ->
      Z.testbit r i = Z.testbit v i && negb (in_region bits shift i).
Proof.
  intros Hv Hb Hs. pose proof (width_pos T).
  unfold clear_bits. rewrite mask_defined by assumption.
  simpl bind. eexists. split; [reflexivity|].
  rewrite cast_arith.
  rewrite cast_id by (apply land_range, cast_range).
  split; [apply land_range, cast_range|]. split; [apply land_le_l, Hv|].
  intros i Hi. rewrite Z.land_spec. unfold cast at 1. unfold wrap.
  rewrite Z.testbit_mod_pow2, Z.lnot_spec, cast_mask_bits_any by lia.
  destruct (Z.ltb_spec i (width T)); [reflexivity|].
  rewrite (in_range_high_bits T v i) by assumption. reflexivity.
Qed.

Lemma clear_bits_spec_witness :
  exists r,
    clear_bits U8 0xff 6 4 = Some r /\
    in_range U8 r /\ r <= 0xff /\
    forall i, 0 <= i ->
      Z.testbit r i = Z.testbit 0xff i && negb (in_region 6 4 i).
Proof.
  apply (clear_bits_spec U8 0xff 6 4).
  - vm_compute. split; [discriminate|reflexivity].
  - unfold UINTMAX_BITS. lia.
  - unfold UINTMAX_BITS. lia.
Defined.

(** ** How [set_bits] and [clear_bits] compose *)

Lemma cast_bits T x i :
  0 <= i -> Z.testbit (cast T x) i = (i <? width T) && Z.testbit x i.
Proof.
  intros Hi. pose proof (width_pos T). unfold cast, wrap.
  apply Z.testbit_mod_pow2. lia.
Qed.

(** On the same run, setting twice is setting once, clearing twice is
    clearing once, and setting after clearing is setting: the second call
    decides.  The equations hold between the outcomes, for every argument. *)
Theorem set_clear_bits_compose T v bits shift :
  (x <- set_bits T v bits shift ;; set_bits T x bits shift) =
    set_bits T v bits shift /\
  (r <- clear_bits T v bits shift ;; clear_bits T r bits shift) =
    clear_bits T v bits shift /\
  (r <- clear_bits T v bits shift ;; set_bits T r bits shift) =
    set_bits T v bits shift.
Proof.
  unfold set_bits, clear_bits.
  destruct (mask bits shift) as [m|]; [|repeat split; reflexivity].
  simpl bind. rewrite cast_arith.
  repeat split; f_equal; apply Z.bits_inj'; intros i Hi;
    repeat (rewrite ?cast_bits, ?Z.lor_spec, ?Z.land_spec, ?Z.lnot_spec by assumption);
    destruct (i <? width T), (Z.testbit v i), (Z.testbit m i); reflexivity.
Qed.

(** ** What the zero counts say about a value *)

Lemma log2_highest T v p : in_range T v -> highest_set_bit T v p -> Z.log2 v = p.
Proof.
  intros Hv (Hp & Hpt & Hhigh).
  assert (Hnz : v <> 0) by (intros ->; rewrite Z.bits_0 in Hpt; discriminate).
  destruct (highest_set_bit_exists T v Hv Hnz) as (Hl & Hlt & Hlhigh).
  destruct (Z.lt_trichotomy (Z.log2 v) p) as [H|[H|H]]; [|assumption|].
  - rewrite Hlhigh in Hpt by lia. discriminate.
  - rewrite Hhigh in Hlt by lia. discriminate.
Qed.

(** For a nonzero value, [leading_zeroes_count] is [W - 1 - log2 value]:
    the value lies between [2^(W - 1 - lz)] and [2^(W - lz)]. *)
Theorem leading_zeroes_count_magnitude T v :
  in_range T v -> v <> 0 ->
  exists lz,
    leading_zeroes_count T v = Some lz /\
    lz = width T - 1 - Z.log2 v /\
    0 <= lz < width T /\
    2 ^ (width T - 1 - lz) <= v < 2 ^ (width T - lz).
Proof.
  intros Hv Hnz. exists (width T - 1 - Z.log2 v).
  split; [apply leading_zeroes_count_nonzero; assumption|]. split; [reflexivity|].
  destruct (highest_set_bit_exists T v Hv Hnz) as (Hl & _).
  split; [lia|].
  assert (Hpos : 0 < v) by (unfold in_range in Hv; lia).
  pose proof (Z.log2_spec v Hpos) as Hs.
  replace (width T - 1 - (width T - 1 - Z.log2 v)) with (Z.log2 v) by lia.
  replace (width T - (width T - 1 - Z.log2 v)) with (Z.succ (Z.log2 v)) by lia.
  exact Hs.
Qed.

Lemma leading_zeroes_count_magnitude_witness :
  exists lz,
    leading_zeroes_count U8 0x0f = Some lz /\
    lz = width U8 - 1 - Z.log2 0x0f /\
    0 <= lz < width U8 /\
    2 ^ (width U8 - 1 - lz) <= 0x0f < 2 ^ (width U8 - lz).
Proof.
  apply (leading_zeroes_count_magnitude U8 0x0f).
  - vm_compute. split; [discriminate|reflexivity].
  - discriminate.
Defined.

(** For a nonzero value, [trailing_zeroes_count] is the exponent of the
    power of two that [isolate_lowest_set_bit] returns, which is the
    largest power of two that divides the value. *)
Theorem trailing_zeroes_count_isolate T v :
  in_range T v -> v <> 0 ->
  exists tz,
    trailing_zeroes_count T v = Some tz /\
    0 <= tz < width T /\
    isolate_lowest_set_bit T v = 2 ^ tz /\
    v mod 2 ^ tz = 0 /\
    v mod 2 ^ (tz + 1) = 2 ^ tz.
Proof.
  intros Hv Hnz.
  destruct (lowest_set_bit_in_range T v Hv Hnz) as (k & Hkw & Hk).
  pose proof Hk as (Hk0 & Hkt & Hlow).
  exists k. split; [apply trailing_zeroes_count_nonzero; assumption|].
  split; [lia|]. split; [apply isolate_lowest_set_bit_pow2; assumption|]. split.
  - apply Z.bits_inj'. intros i Hi.
    rewrite Z.testbit_mod_pow2, Z.bits_0 by lia.
    destruct (Z.ltb_spec i k); [|reflexivity]. apply Hlow. lia.
  - apply Z.bits_inj'. intros i Hi.
    rewrite Z.testbit_mod_pow2, Z.pow2_bits_eqb by lia.
    destruct (Z.ltb_spec i (k + 1)); destruct (Z.eqb_spec k i) as [<-|Hne];
      try lia; try reflexivity.
    + exact Hkt.
    + apply Hlow. lia.
Qed.

Lemma trailing_zeroes_count_isolate_witness :
  exists tz,
    trailing_zeroes_count U8 0x0c = Some tz /\
    0 <= tz < width U8 /\
    isolate_lowest_set_bit U8 0x0c = 2 ^ tz /\
    0x0c mod 2 ^ tz = 0 /\
    0x0c mod 2 ^ (tz + 1) = 2 ^ tz.
Proof.
  apply (trailing_zeroes_count_isolate U8 0x0c).
  - vm_compute. split; [discriminate|reflexivity].
  - discriminate.
Defined.

Lemma ones_in_within n v bits shift :
  0 <= bits -> 0 <= shift ->
  (forall i, 0 <= i < Z.of_nat n -> Z.testbit v i = true ->
             in_region bits shift i = true) ->
  ones_in n v <= Z.max 0 (Z.min (Z.of_nat n) (shift + bits) - shift).
Proof.
  intros Hb Hs. induction n as [|n IH]; intros H; simpl ones_in; [lia|].
  assert (IH' := IH (fun i Hi => H i ltac:(lia))).
  destruct (Z.testbit v (Z.of_nat n)) eqn:Hn; simpl Z.b2z; [|lia].
  pose proof (H (Z.of_nat n) ltac:(lia) Hn) as Hr. unfold in_region in Hr.
  apply andb_true_iff in Hr. destruct Hr as [H1 H2].
  apply Z.leb_le in H1. apply Z.ltb_lt in H2. lia.
Qed.

(** The set bits of a nonzero value lie between its leading and its
    trailing zeroes: the two counts and the population count add up to at
    most the width. *)
Theorem zeroes_counts_and_population T v :
  in_range T v -> v <> 0 ->
  exists lz tz,
    leading_zeroes_count T v = Some lz /\
    trailing_zeroes_count T v = Some tz /\
    1 <= count_bits_set T v /\
    lz + tz + count_bits_set T v <= width T.
Proof.
  intros Hv Hnz. pose proof (width_pos T).
  destruct (highest_set_bit_exists T v Hv Hnz) as (Hl & Hlt & Hhigh).
  destruct (lowest_set_bit_in_range T v Hv Hnz) as (k & Hkw & Hk).
  pose proof Hk as (Hk0 & Hkt & Hlow).
  exists (width T - 1 - Z.log2 v), k.
  split; [apply leading_zeroes_count_nonzero; assumption|].
  split; [apply trailing_zeroes_count_nonzero; assumption|].
  split; [apply popcnt_nonzero; assumption|].
  rewrite count_bits_set_bit_count by assumption. unfold bit_count.
  assert (Hkl : k <= Z.log2 v).
  { destruct (Z_le_gt_dec k (Z.log2 v)) as [|Hgt]; [assumption|].
    rewrite Hlow in Hlt by lia. discriminate. }
  pose proof (ones_in_within (Z.to_nat (width T)) v (Z.log2 v - k + 1) k) as Hc.
  assert (Hle : ones_in (Z.to_nat (width T)) v <=
                Z.max 0 (Z.min (Z.of_nat (Z.to_nat (width T)))
                               (k + (Z.log2 v - k + 1)) - k)).
  { apply Hc; [lia|lia|]. intros i Hi Hit. unfold in_region.
    apply andb_true_iff. split.
    - apply Z.leb_le. destruct (Z_le_gt_dec k i) as [|Hgt]; [assumption|].
      rewrite Hlow in Hit by lia. discriminate.
    - apply Z.ltb_lt. destruct (Z_le_gt_dec i (Z.log2 v)) as [|Hgt]; [lia|].
      rewrite Hhigh in Hit by lia. discriminate. }
  lia.
Qed.

Lemma zeroes_counts_and_population_witness :
  exists lz tz,
    leading_zeroes_count U8 0x2c = Some lz /\
    trailing_zeroes_count U8 0x2c = Some tz /\
    1 <= count_bits_set U8 0x2c /\
    lz + tz + count_bits_set U8 0x2c <= width U8.
Proof.
  apply (zeroes_counts_and_population U8 0x2c).
  - vm_compute. split; [discriminate|reflexivity].
  - discriminate.
Defined.

(** The zero counts of a mask that fits in [T]: a run of [bits >= 1] set
    bits at [shift] has [shift] trailing zeroes and [W - (bits + shift)]
    leading zeroes. *)
Theorem zeroes_counts_of_mask T bits shift :
  1 <= bits < UINTMAX_BITS -> 0 <= shift -> bits + shift <= width T ->
  (m <- mask bits shift ;; leading_zeroes_count T (cast T m)) =
    Some (width T - (bits + shift)) /\
  (m <- mask bits shift ;; trailing_zeroes_count T (cast T m)) = Some shift.
Proof.
  intros Hb Hs Hw. pose proof (width_pos T). pose proof (width_le_uintmax T).
  rewrite mask_defined by lia. simpl bind.
  set (m := cast T (mask_formula bits shift)).
  assert (Hm : in_range T m) by apply cast_range.
  assert (Hbits : forall i, 0 <= i -> Z.testbit m i = in_region bits shift i).
  { intros i Hi. apply cast_mask_bits; lia. }
  assert (Hhi : highest_set_bit T m (shift + bits - 1)).
  { split; [lia|]. split.
    - rewrite Hbits by lia. unfold in_region. cases_cmp; try lia; reflexivity.
    - intros j Hj. rewrite Hbits by lia. unfold in_region.
      cases_cmp; try lia; reflexivity. }
  assert (Hlo : lowest_set_bit m shift).
  { split; [lia|]. split.
    - rewrite Hbits by lia. unfold in_region. cases_cmp; try lia; reflexivity.
    - intros j Hj. rewrite Hbits by lia. unfold in_region.
      cases_cmp; try lia; reflexivity. }
  assert (Hnz : m <> 0).
  { destruct Hlo as (_ & Ht & _). intros E. rewrite E, Z.bits_0 in Ht. discriminate. }
  split.
  - rewrite leading_zeroes_count_nonzero by assumption.
    rewrite (log2_highest T m _ Hm Hhi). f_equal. lia.
  - apply trailing_zeroes_count_nonzero; [assumption|assumption|lia].
Qed.

Lemma zeroes_counts_of_mask_witness :
  (m <- mask 2 2 ;; leading_zeroes_count U8 (cast U8 m)) =
    Some (width U8 - (2 + 2)) /\
  (m <- mask 2 2 ;; trailing_zeroes_count U8 (cast U8 m)) = Some 2.
Proof.
  apply (zeroes_counts_of_mask U8 2 2).
  - unfold UINTMAX_BITS. lia.
  - lia.
  - vm_compute. discriminate.
Defined.

(** ** A mask that does not fit *)

(** Wherever [mask] is defined, the positions of the run beyond bit 63 are
    lost: the mask has [min bits (64 - shift)] set bits, those of the run
    that lie below the width of [uintmax_t]. *)
Theorem mask_truncates bits shift :
  0 <= bits < UINTMAX_BITS -> 0 <= shift < UINTMAX_BITS ->
  exists m,
    mask bits shift = Some m /\
    0 <= m < 2 ^ UINTMAX_BITS /\
    (forall i, 0 <= i ->
       Z.testbit m i = (i <? UINTMAX_BITS) && in_region bits shift i) /\
    count_bits_set U64 m = Z.min bits (UINTMAX_BITS - shift).
Proof.
  intros Hb Hs. exists (mask_formula bits shift).
  split; [apply mask_defined; assumption|].
  split; [apply mask_formula_range|].
  split; [intros i Hi; apply mask_formula_bits; lia|].
  rewrite count_bits_set_bit_count by apply mask_formula_range.
  unfold bit_count.
  rewrite (ones_in_region _ _ (Z.min bits (UINTMAX_BITS - shift)) shift).
  - change (Z.of_nat (Z.to_nat (width U64))) with 64.
    unfold UINTMAX_BITS in *. lia.
  - unfold UINTMAX_BITS in *. lia.
  - lia.
  - change (Z.of_nat (Z.to_nat (width U64))) with 64.
    intros i Hi. rewrite mask_formula_bits by lia.
    unfold in_region, UINTMAX_BITS in *. cases_cmp; try lia; reflexivity.
Qed.

Lemma mask_truncates_witness :
  exists m,
    mask 8 60 = Some m /\
    0 <= m < 2 ^ UINTMAX_BITS /\
    (forall i, 0 <= i ->
       Z.testbit m i = (i <? UINTMAX_BITS) && in_region 8 60 i) /\
    count_bits_set U64 m = Z.min 8 (UINTMAX_BITS - 60).
Proof. apply (mask_truncates 8 60); unfold UINTMAX_BITS; lia. Defined.

(** ** The fills as arithmetic *)

Lemma ones_low_bits k i : 0 <= k -> 0 <= i -> Z.testbit (2 ^ k - 1) i = (i <? k).
Proof.
  intros Hk Hi. rewrite Z.sub_1_r, <- Z.ones_equiv.
  apply Z.testbit_ones_nonneg; assumption.
Qed.

(** [fill_from_lowest_set_bit] adds [2^k - 1] to a value whose lowest set
    bit is at [k]; [fill_from_lowest_clear_bit] takes [2^j - 1] off a value
    whose lowest clear bit is at [j]. *)
Theorem fills_as_arithmetic T v w k j :
  in_range T v -> in_range T w ->
  lowest_set_bit v k -> lowest_clear_bit w j -> j < width T ->
  fill_from_lowest_set_bit T v = v + (2 ^ k - 1) /\
  fill_from_lowest_clear_bit T w = w - (2 ^ j - 1).
Proof.
  intros Hv Hw Hk Hj Hjw. split.
  - pose proof Hk as (Hk0 & Hkt & Hlow).
    assert (Hnz : v <> 0) by (intros ->; rewrite Z.bits_0 in Hkt; discriminate).
    assert (Hland : Z.land v (2 ^ k - 1) = 0).
    { apply Z.bits_inj'. intros i Hi.
      rewrite Z.land_spec, ones_low_bits, Z.bits_0 by assumption.
      destruct (Z.ltb_spec i k); [|apply andb_false_r].
      rewrite Hlow by lia. reflexivity. }
    rewrite (disjoint_add _ _ Hland), fill_from_lowest_set_bit_nonzero by assumption.
    apply Z.bits_inj'. intros i Hi.
    rewrite !Z.lor_spec, (pred_bits v k i Hk Hi), ones_low_bits by assumption.
    destruct (Z.ltb_spec i k); [reflexivity|].
    destruct (Z.eqb_spec i k) as [->|]; [rewrite Hkt; reflexivity|].
    rewrite orb_false_r. apply orb_diag.
  - pose proof Hj as (Hj0 & Hjf & Hlow).
    set (r := fill_from_lowest_clear_bit T w).
    assert (Hr : forall i, 0 <= i -> Z.testbit r i = (j <? i) && Z.testbit w i).
    { intros i Hi. apply fill_from_lowest_clear_bit_bits; assumption. }
    assert (Hland : Z.land r (2 ^ j - 1) = 0).
    { apply Z.bits_inj'. intros i Hi.
      rewrite Z.land_spec, Hr, ones_low_bits, Z.bits_0 by assumption.
      destruct (Z.ltb_spec i j); [|apply andb_false_r].
      destruct (Z.ltb_spec j i); [lia|reflexivity]. }
    assert (Hsum : r + (2 ^ j - 1) = w); [|lia].
    rewrite (disjoint_add _ _ Hland). apply Z.bits_inj'. intros i Hi.
    rewrite Z.lor_spec, Hr, ones_low_bits by assumption.
    destruct (Z.ltb_spec i j) as [Hlt|Hge].
    + rewrite Hlow by lia. apply orb_true_r.
    + destruct (Z.ltb_spec j i); [apply orb_false_r|].
      replace i with j by lia. rewrite Hjf. reflexivity.
Qed.

Lemma fills_as_arithmetic_witness :
  fill_from_lowest_set_bit U8 0x74 = 0x74 + (2 ^ 2 - 1) /\
  fill_from_lowest_clear_bit U8 0xeb = 0xeb - (2 ^ 2 - 1).
Proof.
  apply (fills_as_arithmetic U8 0x74 0xeb 2 2).
  - vm_compute. split; [discriminate|reflexivity].
  - vm_compute. split; [discriminate|reflexivity].
  - split; [lia|]. split; [reflexivity|].
    intros i Hi. assert (E : i = 0 \/ i = 1) by lia.
    destruct E as [->| ->]; reflexivity.
  - split; [lia|]. split; [reflexivity|].
    intros i Hi. assert (E : i = 0 \/ i = 1) by lia.
    destruct E as [->| ->]; reflexivity.
  - reflexivity.
Defined.
